(** * RENDER3D: the level-map progression state machine

    A shallow embedding of the node/path state machine of the two
    overworld scripts of the repository,

      - [src/1.py]                (module [V1], the "enhanced" variant);
      - [src/3dworld5.13.25.py]   (module [V2], the variant with a menu),

    followed by the properties stated about them.

    What is embedded.  The module-level globals [all_level_nodes],
    [paths_entities] and [current_player_node_id] become the fields of a
    [World] record that every function takes and returns.  The Python
    [dict]s are insertion-ordered association lists ([PyDict]); a
    [LevelNode] object lives in the store under its id and is mutated in
    place ([PyDict.adjust]).  Node states are the Python strings
    ['locked'], ['unlocked'], ['completed'].  A click is named by the id
    of the clicked [LevelNode] of the store.  The requests that the
    controller sends to the engine (shake, the unlock "pop" tween, the
    on-screen text) are appended to the [requests] log of the world.

    What is left out.  Colours, scales and positions of the node spheres,
    the tooltip text, the camera, lights and menu, and the console
    [print]s: they are engine-side rendering and never read back by the
    state machine.  [1.py] never raises on the paths modelled here and
    is embedded as total functions; [3dworld5.13.25.py] indexes its
    dictionaries directly, so its functions return [option], [None]
    standing for an uncaught [KeyError]. *)

From Stdlib Require Import String List Bool Arith Lia.
Import ListNotations.
Open Scope string_scope.
Open Scope list_scope.

(** ** Python dictionaries *)

Module PyDict.
Section Defs.
Context {K V : Type} (eqb : K -> K -> bool).

(** [d.get(k)] *)
Fixpoint get (k : K) (d : list (K * V)) : option V :=
  match d with
  | [] => None
  | (k', v) :: r => if eqb k k' then Some v else get k r
  end.

(** [k in d] *)
Definition mem (k : K) (d : list (K * V)) : bool :=
  match get k d with Some _ => true | None => false end.

(** [d[k] = v]: an existing key keeps its place, a new one goes last. *)
Fixpoint set (k : K) (v : V) (d : list (K * V)) : list (K * V) :=
  match d with
  | [] => [(k, v)]
  | (k', v') :: r => if eqb k k' then (k', v) :: r else (k', v') :: set k v r
  end.

(** In-place mutation of the object stored under [k]. *)
Fixpoint adjust (f : V -> V) (k : K) (d : list (K * V)) : list (K * V) :=
  match d with
  | [] => []
  | (k', v) :: r => if eqb k k' then (k', f v) :: r else (k', v) :: adjust f k r
  end.

Definition keys (d : list (K * V)) : list K := map fst d.
End Defs.
End PyDict.

(** ** Data *)

Definition locked : string := "locked".
Definition unlocked : string := "unlocked".
Definition completed : string := "completed".

(** One record of [levels_data] (position and colour left out). *)
Record LevelData := mkLevelData {
  ld_id : string;
  ld_name : string;
  ld_unlocks : list string;
  ld_initial_state : string
}.

(** The state-machine fields of a [LevelNode].  [collider] is whether the
    node takes clicks ([None] against ['box']/['sphere']). *)
Record LevelNode := mkLevelNode {
  level_id : string;
  level_name : string;
  unlocks : list string;
  node_state : string;
  is_current_game_node : bool;
  collider : bool
}.

Inductive PathColor := white | light_gray | gray | dark_gray | black.

(** A line entity of [paths_entities]. *)
Record PathEntity := mkPathEntity {
  path_color : PathColor;
  thickness : nat;
  visible : bool
}.

(** Requests sent to the engine. *)
Inductive Request :=
| Shake (node_id : string)
| Pop (node_id : string)
| EnteringLevel (name : string)
| MovedTo (name : string).

Definition NodeDict := list (string * LevelNode).
Definition PathDict := list ((string * string) * PathEntity).

Record World := mkWorld {
  all_level_nodes : NodeDict;
  paths_entities : PathDict;
  current_player_node_id : option string;
  requests : list Request
}.

Definition key_eqb (a b : string * string) : bool :=
  (fst a =? fst b) && (snd a =? snd b).

Definition nget : string -> NodeDict -> option LevelNode := PyDict.get String.eqb.
Definition nmem : string -> NodeDict -> bool := PyDict.mem String.eqb.
Definition nset : string -> LevelNode -> NodeDict -> NodeDict := PyDict.set String.eqb.
Definition nadjust : (LevelNode -> LevelNode) -> string -> NodeDict -> NodeDict :=
  PyDict.adjust String.eqb.
Definition pmem : string * string -> PathDict -> bool := PyDict.mem key_eqb.
Definition pget : string * string -> PathDict -> option PathEntity := PyDict.get key_eqb.
Definition pset : string * string -> PathEntity -> PathDict -> PathDict :=
  PyDict.set key_eqb.

(** Python truthiness of [current_player_node_id]: [None] and [''] are false. *)
Definition truthy (o : option string) : bool :=
  match o with
  | Some s => negb (s =? "")
  | None => false
  end.

Definition is_none (o : option string) : bool :=
  match o with Some _ => false | None => true end.

(** [node_id == current_player_node_id] *)
Definition id_is (node_id : string) (cur : option string) : bool :=
  match cur with
  | Some c => node_id =? c
  | None => false
  end.

(** [LevelNode.__init__]; a [Button] is born with a collider. *)
Definition new_LevelNode (data : LevelData) : LevelNode :=
  {| level_id := ld_id data;
     level_name := ld_name data;
     unlocks := ld_unlocks data;
     node_state := ld_initial_state data;
     is_current_game_node := false;
     collider := true |}.

(** [LevelNode.set_state] *)
Definition set_state (new_state : string) (n : LevelNode) : LevelNode :=
  {| level_id := level_id n;
     level_name := level_name n;
     unlocks := unlocks n;
     node_state := new_state;
     is_current_game_node := is_current_game_node n;
     collider := collider n |}.

(** [LevelNode.update_visual_state], the same in both files for the fields
    kept here. *)
Definition update_visual_state (is_current : bool) (n : LevelNode) : LevelNode :=
  {| level_id := level_id n;
     level_name := level_name n;
     unlocks := unlocks n;
     node_state := node_state n;
     is_current_game_node := is_current;
     collider :=
       if node_state n =? locked then false
       else if node_state n =? unlocked then true
       else if node_state n =? completed then true
       else collider n |}.

(** [tuple(sorted((node_id, target_id)))] *)
Definition sorted_pair (a b : string) : string * string :=
  if String.ltb b a then (b, a) else (a, b).

(** The line created for a new path: [thickness=5], an [Entity]'s default
    colour and visibility. *)
Definition new_path : PathEntity :=
  {| path_color := white; thickness := 5; visible := true |}.

(** The body of the path-creation loops of [setup_level_nodes_and_paths]. *)
Definition create_path_step (nodes : NodeDict) (node_id : string)
    (paths : PathDict) (target_id : string) : PathDict :=
  if nmem target_id nodes then
    let path_key := sorted_pair node_id target_id in
    if pmem path_key paths then paths else pset path_key new_path paths
  else paths.

Definition create_paths_from (nodes : NodeDict) (items : NodeDict)
    (paths : PathDict) : PathDict :=
  fold_left
    (fun ps (item : string * LevelNode) =>
       fold_left (create_path_step nodes (fst item)) (unlocks (snd item)) ps)
    items paths.

Definition create_paths (nodes : NodeDict) : PathDict :=
  create_paths_from nodes nodes [].

(** The node loop of [update_all_visuals]. *)
Definition update_node_visuals (cur : option string) (nodes : NodeDict) : NodeDict :=
  map (fun item : string * LevelNode =>
         (fst item, update_visual_state (id_is (fst item) cur) (snd item)))
      nodes.

(** The unlock loop of [set_current_player_node]: a locked node named in
    [unlocks] becomes unlocked and is sent a pop animation. *)
Definition unlock_step (acc : NodeDict * list Request) (unlock_target_id : string)
    : NodeDict * list Request :=
  let '(nodes, reqs) := acc in
  match nget unlock_target_id nodes with
  | Some node_to_unlock =>
      if node_state node_to_unlock =? locked
      then (nadjust (set_state unlocked) unlock_target_id nodes,
            reqs ++ [Pop unlock_target_id])
      else (nodes, reqs)
  | None => (nodes, reqs)
  end.

Definition unlock_cascade (targets : list string) (nodes : NodeDict)
    (reqs : list Request) : NodeDict * list Request :=
  fold_left unlock_step targets (nodes, reqs).

Definition add_request (r : Request) (w : World) : World :=
  {| all_level_nodes := all_level_nodes w;
     paths_entities := paths_entities w;
     current_player_node_id := current_player_node_id w;
     requests := requests w ++ [r] |}.

Definition state_in_unlocked_completed (s : string) : bool :=
  (s =? unlocked) || (s =? completed).

(** The vacated node: [prev_node] goes from unlocked to completed. *)
Definition complete_prev (prev_node : LevelNode) (cur_id : string)
    (nodes : NodeDict) : NodeDict :=
  if node_state prev_node =? unlocked
  then nadjust (set_state completed) cur_id nodes
  else nodes.

(** The defensive unlock of the node moved to. *)
Definition unlock_landed (current_node : LevelNode) (target_node_id : string)
    (nodes : NodeDict) : NodeDict :=
  if node_state current_node =? locked
  then nadjust (set_state unlocked) target_node_id nodes
  else nodes.

(** The globals before [setup_level_nodes_and_paths] has run. *)
Definition initial_world : World :=
  {| all_level_nodes := [];
     paths_entities := [];
     current_player_node_id := None;
     requests := [] |}.

(** ** [src/1.py] *)

Module V1.

(** Node loop of [setup_level_nodes_and_paths]; the pointer is taken by
    the first initially unlocked node ([is None] test). *)
Definition create_node_step (acc : NodeDict * option string) (data : LevelData)
    : NodeDict * option string :=
  (nset (ld_id data) (new_LevelNode data) (fst acc),
   if (ld_initial_state data =? unlocked) && is_none (snd acc)
   then Some (ld_id data) else snd acc).

(** The body of the loop of [update_path_visuals], for a path whose two
    endpoint nodes were found. *)
Definition path_visual (node1 node2 : LevelNode) : PathEntity :=
  let s1 := node_state node1 in
  let s2 := node_state node2 in
  let is_node1_accessible :=
    state_in_unlocked_completed s1 || is_current_game_node node1 in
  let is_node2_accessible :=
    state_in_unlocked_completed s2 || is_current_game_node node2 in
  let path_active := negb (s1 =? locked) && negb (s2 =? locked) in
  if path_active then
    if is_current_game_node node1 || is_current_game_node node2 then
      {| path_color := white; thickness := 8; visible := true |}
    else if (s1 =? unlocked) && (s2 =? unlocked) then
      {| path_color := light_gray; thickness := 5; visible := true |}
    else if ((s1 =? completed) && (s2 =? unlocked))
            || ((s1 =? unlocked) && (s2 =? completed))
            || ((s1 =? completed) && (s2 =? completed)) then
      {| path_color := gray; thickness := 5; visible := true |}
    else
      {| path_color := dark_gray; thickness := 3; visible := true |}
  else
    {| path_color := black; thickness := 3;
       visible := (is_node1_accessible || is_node2_accessible)
                  && negb ((s1 =? locked) && (s2 =? locked)) |}.

(** [update_path_visuals]: a path with a missing endpoint is skipped. *)
Definition update_path_visuals (nodes : NodeDict) (paths : PathDict) : PathDict :=
  map (fun item : (string * string) * PathEntity =>
         match nget (fst (fst item)) nodes, nget (snd (fst item)) nodes with
         | Some node1, Some node2 => (fst item, path_visual node1 node2)
         | _, _ => item
         end)
      paths.

Definition update_all_visuals (w : World) : World :=
  let nodes := update_node_visuals (current_player_node_id w) (all_level_nodes w) in
  {| all_level_nodes := nodes;
     paths_entities := update_path_visuals nodes (paths_entities w);
     current_player_node_id := current_player_node_id w;
     requests := requests w |}.

(** The fallback of [setup_level_nodes_and_paths]: with no pointer yet and
    a non-empty configuration, the first record's id becomes the pointer
    and, when that id is truthy and in the store, its node is unlocked. *)
Definition fallback (levels_data : list LevelData) (acc : NodeDict * option string)
    : NodeDict * option string :=
  match levels_data with
  | first :: _ =>
      if is_none (snd acc) then
        (if truthy (Some (ld_id first)) && nmem (ld_id first) (fst acc)
         then nadjust (set_state unlocked) (ld_id first) (fst acc)
         else fst acc,
         Some (ld_id first))
      else acc
  | [] => acc
  end.

Definition setup_level_nodes_and_paths (levels_data : list LevelData) (w : World)
    : World :=
  let created :=
    fold_left create_node_step levels_data
              (all_level_nodes w, current_player_node_id w) in
  let paths := create_paths_from (fst created) (fst created) (paths_entities w) in
  let final := fallback levels_data created in
  update_all_visuals
    {| all_level_nodes := fst final;
       paths_entities := paths;
       current_player_node_id := snd final;
       requests := requests w |}.

(** The first step of [set_current_player_node]: a truthy pointer that is
    in the store has its node completed if it was unlocked. *)
Definition vacate (w : World) : NodeDict :=
  match current_player_node_id w with
  | Some cur_id =>
      if truthy (Some cur_id) then
        match nget cur_id (all_level_nodes w) with
        | Some prev_node => complete_prev prev_node cur_id (all_level_nodes w)
        | None => all_level_nodes w
        end
      else all_level_nodes w
  | None => all_level_nodes w
  end.

Definition set_current_player_node (target_node_id : string) (w : World) : World :=
  let nodes1 := vacate w in
  match nget target_node_id nodes1 with
  | Some current_node =>
      let nodes2 := unlock_landed current_node target_node_id nodes1 in
      let cascade := unlock_cascade (unlocks current_node) nodes2 (requests w) in
      update_all_visuals
        {| all_level_nodes := fst cascade;
           paths_entities := paths_entities w;
           current_player_node_id := Some target_node_id;
           requests := snd cascade |}
  | None =>
      update_all_visuals
        {| all_level_nodes := nodes1;
           paths_entities := paths_entities w;
           current_player_node_id := Some target_node_id;
           requests := requests w |}
  end.

(** The [can_move] flag computed by [handle_node_click]. *)
Definition can_move (w : World) (clicked_node : LevelNode) : bool :=
  match current_player_node_id w with
  | Some cur_id =>
      if truthy (Some cur_id) then
        match nget cur_id (all_level_nodes w) with
        | Some player_node =>
            if existsb (String.eqb (level_id clicked_node)) (unlocks player_node)
               && (node_state clicked_node =? unlocked)
            then true
            else if (node_state clicked_node =? unlocked)
                    || (node_state clicked_node =? completed)
            then true
            else false
        | None => false
        end
      else false
  | None => false
  end.

(** The test guarding the last rejection of [handle_node_click], from the
    value of [can_move]. *)
Definition rejects (can_move : bool) (clicked_node : LevelNode) : bool :=
  negb can_move
  && negb (node_state clicked_node =? unlocked)
  && negb (node_state clicked_node =? completed).

(** The end of [handle_node_click], once [can_move] has been computed. *)
Definition finish_click (can_move : bool) (clicked_node : LevelNode) (w : World)
    : World :=
  if rejects can_move clicked_node then
    add_request (Shake (level_id clicked_node)) w
  else
    add_request (MovedTo (level_name clicked_node))
                (set_current_player_node (level_id clicked_node) w).

(** [handle_node_click], the clicked [LevelNode] being the one stored
    under [clicked_id]; anything else is not a [LevelNode] and is
    ignored. *)
Definition handle_node_click (clicked_id : string) (w : World) : World :=
  match nget clicked_id (all_level_nodes w) with
  | None => w
  | Some clicked_node =>
      if node_state clicked_node =? locked then
        add_request (Shake (level_id clicked_node)) w
      else if id_is (level_id clicked_node) (current_player_node_id w) then
        add_request (EnteringLevel (level_name clicked_node)) w
      else
        finish_click (can_move w clicked_node) clicked_node w
  end.

(** The game after start-up, and after a sequence of clicks. *)
Definition init (levels_data : list LevelData) : World :=
  setup_level_nodes_and_paths levels_data initial_world.

Definition run (clicks : list string) (w : World) : World :=
  fold_left (fun w' clicked_id => handle_node_click clicked_id w') clicks w.

Inductive reachable (levels_data : list LevelData) : World -> Prop :=
| reach_init : reachable levels_data (init levels_data)
| reach_click w clicked_id :
    reachable levels_data w ->
    reachable levels_data (handle_node_click clicked_id w).

End V1.

(** ** [src/3dworld5.13.25.py] *)

Module V2.

(** [None] is an uncaught [KeyError]. *)
Notation "x <- e ;; k" :=
  (match e with Some x => k | None => None end)
  (at level 61, e at next level, right associativity).

(** Node loop of [setup_level_nodes_and_paths]; the pointer is taken while
    it is falsy ([not current_player_node_id]). *)
Definition create_node_step (acc : NodeDict * option string) (data : LevelData)
    : NodeDict * option string :=
  (nset (ld_id data) (new_LevelNode data) (fst acc),
   if (ld_initial_state data =? unlocked) && negb (truthy (snd acc))
   then Some (ld_id data) else snd acc).

(** The body of the loop of [update_path_visuals]. *)
Definition path_visual (node1 node2 : LevelNode) : PathEntity :=
  let s1 := node_state node1 in
  let s2 := node_state node2 in
  let path_active := negb (s1 =? locked) && negb (s2 =? locked) in
  if path_active then
    if is_current_game_node node1 || is_current_game_node node2 then
      {| path_color := white; thickness := 8; visible := true |}
    else if (s1 =? unlocked) && (s2 =? unlocked) then
      {| path_color := light_gray; thickness := 5; visible := true |}
    else
      {| path_color := gray; thickness := 5; visible := true |}
  else
    {| path_color := black; thickness := 3;
       visible := state_in_unlocked_completed s1
                  || state_in_unlocked_completed s2 |}.

(** [update_path_visuals]: both endpoints are indexed directly. *)
Fixpoint update_path_visuals (nodes : NodeDict) (paths : PathDict)
    : option PathDict :=
  match paths with
  | [] => Some []
  | (path_key, _) :: rest =>
      node1 <- nget (fst path_key) nodes ;;
      node2 <- nget (snd path_key) nodes ;;
      rest' <- update_path_visuals nodes rest ;;
      Some ((path_key, path_visual node1 node2) :: rest')
  end.

Definition update_all_visuals (w : World) : option World :=
  let nodes := update_node_visuals (current_player_node_id w) (all_level_nodes w) in
  paths <- update_path_visuals nodes (paths_entities w) ;;
  Some {| all_level_nodes := nodes;
          paths_entities := paths;
          current_player_node_id := current_player_node_id w;
          requests := requests w |}.

(** The fallback of [setup_level_nodes_and_paths]: with a falsy pointer
    and a non-empty configuration, the first record's id becomes the
    pointer and its node, indexed directly, is unlocked. *)
Definition fallback (levels_data : list LevelData) (acc : NodeDict * option string)
    : option (NodeDict * option string) :=
  match levels_data with
  | first :: _ =>
      if negb (truthy (snd acc)) then
        _ <- nget (ld_id first) (fst acc) ;;
        Some (nadjust (set_state unlocked) (ld_id first) (fst acc),
              Some (ld_id first))
      else Some acc
  | [] => Some acc
  end.

Definition setup_level_nodes_and_paths (levels_data : list LevelData) (w : World)
    : option World :=
  let created :=
    fold_left create_node_step levels_data
              (all_level_nodes w, current_player_node_id w) in
  let paths := create_paths_from (fst created) (fst created) (paths_entities w) in
  final <- fallback levels_data created ;;
  update_all_visuals
    {| all_level_nodes := fst final;
       paths_entities := paths;
       current_player_node_id := snd final;
       requests := requests w |}.

(** The first step of [set_current_player_node]: a truthy pointer is
    indexed directly, and its node completed if it was unlocked. *)
Definition vacate (w : World) : option NodeDict :=
  match current_player_node_id w with
  | Some cur_id =>
      if truthy (Some cur_id) then
        prev_node <- nget cur_id (all_level_nodes w) ;;
        Some (complete_prev prev_node cur_id (all_level_nodes w))
      else Some (all_level_nodes w)
  | None => Some (all_level_nodes w)
  end.

Definition set_current_player_node (target_node_id : string) (w : World)
    : option World :=
  nodes1 <- vacate w ;;
  current_node <- nget target_node_id nodes1 ;;
  let nodes2 := unlock_landed current_node target_node_id nodes1 in
  let cascade := unlock_cascade (unlocks current_node) nodes2 (requests w) in
  update_all_visuals
    {| all_level_nodes := fst cascade;
       paths_entities := paths_entities w;
       current_player_node_id := Some target_node_id;
       requests := snd cascade |}.

(** [get_adjacent_nodes], over the keys of [paths_entities]. *)
Fixpoint get_adjacent_nodes (node_id : option string) (paths : PathDict)
    : list string :=
  match paths with
  | [] => []
  | ((id1, id2), _) :: rest =>
      if id_is id1 node_id then id2 :: get_adjacent_nodes node_id rest
      else if id_is id2 node_id then id1 :: get_adjacent_nodes node_id rest
      else get_adjacent_nodes node_id rest
  end.

(** [handle_node_click], the clicked [LevelNode] being the one stored
    under [clicked_id]; a click on nothing does nothing. *)
Definition handle_node_click (clicked_id : string) (w : World) : option World :=
  match nget clicked_id (all_level_nodes w) with
  | None => Some w
  | Some clicked_node =>
      if node_state clicked_node =? locked then
        Some (add_request (Shake (level_id clicked_node)) w)
      else if id_is (level_id clicked_node) (current_player_node_id w) then
        Some (add_request (EnteringLevel (level_name clicked_node)) w)
      else
        let adjacent_nodes :=
          get_adjacent_nodes (current_player_node_id w) (paths_entities w) in
        if existsb (String.eqb (level_id clicked_node)) adjacent_nodes
           && state_in_unlocked_completed (node_state clicked_node)
        then
          w' <- set_current_player_node (level_id clicked_node) w ;;
          Some (add_request (MovedTo (level_name clicked_node)) w')
        else
          Some (add_request (Shake (level_id clicked_node)) w)
  end.

(** The game after start-up, and after a sequence of clicks. *)
Definition init (levels_data : list LevelData) : option World :=
  setup_level_nodes_and_paths levels_data initial_world.

Fixpoint run (clicks : list string) (w : World) : option World :=
  match clicks with
  | [] => Some w
  | clicked_id :: rest =>
      w' <- handle_node_click clicked_id w ;;
      run rest w'
  end.

Inductive reachable (levels_data : list LevelData) : World -> Prop :=
| reach_init w : init levels_data = Some w -> reachable levels_data w
| reach_click w clicked_id w' :
    reachable levels_data w ->
    handle_node_click clicked_id w = Some w' ->
    reachable levels_data w'.

End V2.

(** ** The shipped configuration *)

Definition levels_data : list LevelData :=
  [ mkLevelData "1-1" "World 1-1" ["1-2"] "unlocked";
    mkLevelData "1-2" "World 1-2" ["1-A"; "1-3"] "locked";
    mkLevelData "1-A" "World 1-A (Bonus)" [] "locked";
    mkLevelData "1-3" "World 1-3" ["1-Castle"] "locked";
    mkLevelData "1-Castle" "World 1-Castle" ["2-1"] "locked";
    mkLevelData "2-1" "World 2-1" [] "locked" ].


(** ** Vocabulary of the properties *)

(** The state of the node stored under [k]. *)
Definition nstate (k : string) (d : NodeDict) : option string :=
  option_map node_state (nget k d).

Definition nkeys (d : NodeDict) : list string := PyDict.keys d.

(** State of node [k] once the pointer [cur] has been vacated. *)
Definition vacate_state (cur : option string) (k s : string) : string :=
  if truthy cur && id_is k cur && (s =? unlocked) then completed else s.

(** State of node [k] once [X] has been landed on. *)
Definition land_state (X k s : string) : string :=
  if (k =? X) && (s =? locked) then unlocked else s.

(** State of node [k] once the nodes of [targets] have been unlocked. *)
Definition cascade_state (targets : list string) (k s : string) : string :=
  if existsb (String.eqb k) targets && (s =? locked) then unlocked else s.

Definition move_state (cur : option string) (X : string) (targets : list string)
    (k s : string) : string :=
  cascade_state targets k (land_state X k (vacate_state cur k s)).

(** [restate g n] is [n] with its state sent through [g]. *)
Definition restate (g : string -> string) (n : LevelNode) : LevelNode :=
  set_state (g (node_state n)) n.

Definition pkeys (paths : PathDict) : list (string * string) := PyDict.keys paths.

(** Both endpoints of a path key are in the store. *)
Definition endpoints_in (nodes : NodeDict) (path_key : string * string) : bool :=
  nmem (fst path_key) nodes && nmem (snd path_key) nodes.

(** The pointer, when set, names a node of the store. *)
Definition pointer_ok (w : World) : bool :=
  match current_player_node_id w with
  | Some c => nmem c (all_level_nodes w)
  | None => true
  end.

Definition paths_ok (w : World) : bool :=
  forallb (endpoints_in (all_level_nodes w)) (pkeys (paths_entities w)).

Definition well_formed (w : World) : Prop :=
  pointer_ok w = true /\ paths_ok w = true.

(** Every node's flag says whether the pointer is on it. *)
Definition synced (w : World) : Prop :=
  forall k n, In (k, n) (all_level_nodes w) ->
              is_current_game_node n = id_is k (current_player_node_id w).

Definition keys_unique (w : World) : Prop := NoDup (nkeys (all_level_nodes w)).

(** Every node is stored under its own id, so a click names its node. *)
Definition store_keyed (d : NodeDict) : Prop :=
  forall k n, nget k d = Some n -> level_id n = k.

Definition keyed_by_id (w : World) : Prop := store_keyed (all_level_nodes w).

Record invariant (w : World) : Prop := {
  inv_well_formed : well_formed w;
  inv_keys_unique : keys_unique w;
  inv_keyed_by_id : keyed_by_id w;
  inv_synced : synced w
}.

(** The store built by the node loop of [setup_level_nodes_and_paths]. *)
Definition created_nodes (levels_data : list LevelData) (d : NodeDict) : NodeDict :=
  fold_left (fun d' data => nset (ld_id data) (new_LevelNode data) d') levels_data d.

(** Where the pointer can be after the node loop. *)
Definition pointer_from (cfg : list LevelData) (c0 p : option string) : Prop :=
  match p with
  | Some c => c0 = Some c \/ In c (map ld_id cfg)
  | None => c0 = None
  end.

(** What the pointer and the store are after the fallback. *)
Definition fallback_post (cfg : list LevelData) (d : NodeDict)
    (f : NodeDict * option string) : Prop :=
  nkeys (fst f) = nkeys d
  /\ store_keyed (fst f)
  /\ match snd f with
     | Some c => nmem c (fst f) = true
     | None => cfg = []
     end.

Definition count_current (d : NodeDict) : nat :=
  length (filter (fun item : string * LevelNode => is_current_game_node (snd item)) d).

(** Exactly one node of the store is flagged current, and it is the one
    the pointer names. *)
Definition single_current (w : World) : Prop :=
  exists c,
    current_player_node_id w = Some c
    /\ (forall k n, In (k, n) (all_level_nodes w) ->
                    is_current_game_node n = (k =? c))
    /\ count_current (all_level_nodes w) = 1.

(** The world an [option] holds, for stating facts about runs that are
    known not to raise. *)
Definition world_of (o : option World) : World :=
  match o with Some w => w | None => initial_world end.

(** [s'] is [s] or further along locked, unlocked, completed. *)
Definition advances (s s' : string) : Prop :=
  s = s'
  \/ (s = locked /\ s' = unlocked)
  \/ (s = unlocked /\ s' = completed)
  \/ (s = locked /\ s' = completed).

(** The three backward transitions. *)
Definition regresses (s s' : string) : Prop :=
  (s = completed /\ s' = unlocked)
  \/ (s = completed /\ s' = locked)
  \/ (s = unlocked /\ s' = locked).

(** From store [d] to store [d']: the same nodes, none gone backward. *)
Definition never_back (d d' : NodeDict) : Prop :=
  nkeys d' = nkeys d
  /\ forall k s, nstate k d = Some s ->
       exists s', nstate k d' = Some s' /\ advances s s' /\ ~ regresses s s'.

(** The cascade property in its strict wording: the locked nodes of
    [X.unlocks] are unlocked, and no node outside [X.unlocks] changes
    state. *)
Definition cascade_as_stated (X : string) (w w' : World) : Prop :=
  forall x, nget X (all_level_nodes w) = Some x ->
    (forall k, In k (unlocks x) ->
               nstate k (all_level_nodes w) = Some locked ->
               nstate k (all_level_nodes w') = Some unlocked)
    /\ (forall k, ~ In k (unlocks x) ->
                  nstate k (all_level_nodes w') = nstate k (all_level_nodes w)).

(** What a move does: the locked nodes of [X.unlocks] are unlocked, and
    the state of a node outside [X.unlocks] is left as it was unless it is
    the node the pointer was on, or it is [X] and was locked. *)
Definition cascade_ok (X : string) (x : LevelNode) (w w' : World) : Prop :=
  (forall k, In k (unlocks x) ->
             nstate k (all_level_nodes w) = Some locked ->
             nstate k (all_level_nodes w') = Some unlocked)
  /\ (forall k, ~ In k (unlocks x) ->
                current_player_node_id w <> Some k ->
                k <> X \/ nstate k (all_level_nodes w) <> Some locked ->
                nstate k (all_level_nodes w') = nstate k (all_level_nodes w)).

(** Start, two open nodes in a row, then a locked one. *)
Definition chain_open_data : list LevelData :=
  [ mkLevelData "A" "Level A" ["B"] "unlocked";
    mkLevelData "B" "Level B" ["C"] "unlocked";
    mkLevelData "C" "Level C" [] "locked" ].

(** [w] with the requests [rs] appended to its log and nothing else
    changed. *)
Definition with_requests (rs : list Request) (w : World) : World :=
  {| all_level_nodes := all_level_nodes w;
     paths_entities := paths_entities w;
     current_player_node_id := current_player_node_id w;
     requests := requests w ++ rs |}.

(** [A] unlocked, unlocking [B]; [B] locked, unlocking [C]; [C] locked. *)
Definition chain_data : list LevelData :=
  [ mkLevelData "A" "Level A" ["B"] "unlocked";
    mkLevelData "B" "Level B" ["C"] "locked";
    mkLevelData "C" "Level C" [] "locked" ].

(** The outcome the scenario expects of a click on [B]. *)
Definition moved_to_B (w : World) : Prop :=
  nstate "A" (all_level_nodes w) = Some completed
  /\ nstate "B" (all_level_nodes w) = Some unlocked
  /\ current_player_node_id w = Some "B"
  /\ nstate "C" (all_level_nodes w) = Some locked.

(** The game starts on the node of the record [first]: the pointer is its
    id, and its node is unlocked and flagged current. *)
Definition started_on (first : LevelData) (w : World) : Prop :=
  current_player_node_id w = Some (ld_id first)
  /\ exists n, nget (ld_id first) (all_level_nodes w) = Some n
               /\ node_state n = unlocked
               /\ is_current_game_node n = true.

(** The one-record configuration of [first], with no edge. *)
Definition alone (first : LevelData) : list LevelData :=
  [ mkLevelData (ld_id first) (ld_name first) [] (ld_initial_state first) ].

(** A locked node on its own. *)
Definition lonely : LevelData := mkLevelData "1-1" "World 1-1" [] "locked".

(** [A] unlocked, unlocking the locked [B]; [C] unlocked and joined to
    nothing. *)
Definition apart_data : list LevelData :=
  [ mkLevelData "A" "Level A" ["B"] "unlocked";
    mkLevelData "B" "Level B" [] "locked";
    mkLevelData "C" "Level C" [] "unlocked" ].

Definition known_state (s : string) : Prop :=
  s = locked \/ s = unlocked \/ s = completed.

(** Every node of the store is in one of the three states. *)
Definition states_known (d : NodeDict) : Prop :=
  forall k n, nget k d = Some n -> known_state (node_state n).

(** ** Vocabulary of the further properties *)

(** The id of the first initially unlocked record, if there is one. *)
Definition first_unlocked (cfg : list LevelData) : option string :=
  option_map ld_id (find (fun data => ld_initial_state data =? unlocked) cfg).

(** Where a game starts: on the first initially unlocked record, else on
    the first record. *)
Definition start_pointer (cfg : list LevelData) : option string :=
  match first_unlocked cfg with
  | Some c => Some c
  | None => option_map ld_id (hd_error cfg)
  end.

(** The store before the first sync: the created nodes, the first one
    unlocked when no record is initially unlocked. *)
Definition start_nodes (cfg : list LevelData) : NodeDict :=
  match first_unlocked cfg, cfg with
  | None, first :: _ =>
      nadjust (set_state unlocked) (ld_id first) (created_nodes cfg [])
  | _, _ => created_nodes cfg []
  end.

(** The world that the first sync of a game is run on. *)
Definition start_world (cfg : list LevelData) : World :=
  {| all_level_nodes := start_nodes cfg;
     paths_entities := create_paths (created_nodes cfg []);
     current_player_node_id := start_pointer cfg;
     requests := [] |}.

(** Configured ids are non-empty strings. *)
Definition ids_nonempty (cfg : list LevelData) : Prop :=
  forall data, In data cfg -> ld_id data <> "".

(** The state a record's node starts in: its configured state, but
    unlocked for the first record when no record is initially unlocked. *)
Definition start_state (cfg : list LevelData) (data : LevelData) : string :=
  match first_unlocked cfg, hd_error cfg with
  | None, Some first =>
      if ld_id data =? ld_id first then unlocked else ld_initial_state data
  | _, _ => ld_initial_state data
  end.

(** Every node is locked, or is the one the pointer is on. *)
Definition only_current_open (w : World) : Prop :=
  forall k n, nget k (all_level_nodes w) = Some n ->
    node_state n = locked \/ id_is (level_id n) (current_player_node_id w) = true.

(** The requests of a click that moves nothing. *)
Definition quiet (r : Request) : Prop :=
  match r with
  | Shake _ | EnteringLevel _ => True
  | Pop _ | MovedTo _ => False
  end.

(** Every record is locked, but for the one a game starts on. *)
Definition one_way_in (cfg : list LevelData) : Prop :=
  forall data, In data cfg ->
    ld_initial_state data = locked \/ start_pointer cfg = Some (ld_id data).

(** A configured edge: record [data] lists [t] in its unlocks, and [t] is
    a configured id. *)
Definition edge (cfg : list LevelData) (a b : string) : Prop :=
  exists data, In data cfg /\ ld_id data = a /\ In b (ld_unlocks data)
               /\ In b (map ld_id cfg).

(** What holds of the keys of a path store built by the set-up loops:
    no key twice, and each with its smaller id first. *)
Definition keys_fine (paths : PathDict) : Prop :=
  NoDup (pkeys paths)
  /\ forall key, In key (pkeys paths) ->
                 String.ltb (snd key) (fst key) = false.

(** The node the pointer is on, if stored, is not locked. *)
Definition current_open (w : World) : Prop :=
  forall c n, current_player_node_id w = Some c ->
              nget c (all_level_nodes w) = Some n ->
              node_state n <> locked.

(** The configured initial states are state names. *)
Definition states_valid (cfg : list LevelData) : Prop :=
  forall data, In data cfg -> known_state (ld_initial_state data).

(** The ids that the unlock loop of [set_current_player_node] finds
    locked, in the order it meets them. *)
Fixpoint popped (targets : list string) (nodes : NodeDict) : list string :=
  match targets with
  | [] => []
  | t :: rest =>
      match nget t nodes with
      | Some node_to_unlock =>
          if node_state node_to_unlock =? locked
          then t :: popped rest (nadjust (set_state unlocked) t nodes)
          else popped rest nodes
      | None => popped rest nodes
      end
  end.

(** Node [n] is the node of record [data]: same id, name and unlocks. *)
Definition node_of (data : LevelData) (n : LevelNode) : Prop :=
  level_id n = ld_id data
  /\ level_name n = ld_name data
  /\ unlocks n = ld_unlocks data.

(** The store holds the configured graph: the configured ids in order,
    each with the node of its record. *)
Definition holds_graph (cfg : list LevelData) (d : NodeDict) : Prop :=
  nkeys d = map ld_id cfg
  /\ forall data, In data cfg ->
       exists n, nget (ld_id data) d = Some n /\ node_of data n.

(** The last record configured with id [k]. *)
Definition last_record (k : string) (cfg : list LevelData) : option LevelData :=
  find (fun data => ld_id data =? k) (rev cfg).

(** Two records named [A], the second one last. *)
Definition twice_data : list LevelData :=
  [ mkLevelData "A" "First A" ["B"] "unlocked";
    mkLevelData "B" "Level B" [] "locked";
    mkLevelData "A" "Second A" [] "locked" ].

(** ** Facts about the node store *)

Arguments nget : simpl never.
Arguments nset : simpl never.
Arguments nadjust : simpl never.
Arguments nmem : simpl never.

Lemma nget_cons k k0 v r :
  nget k ((k0, v) :: r) = if k =? k0 then Some v else nget k r.
Proof. reflexivity. Qed.

Lemma nadjust_cons f k k0 v r :
  nadjust f k ((k0, v) :: r) =
  if k =? k0 then (k0, f v) :: r else (k0, v) :: nadjust f k r.
Proof. reflexivity. Qed.

Lemma nset_cons k v k0 v0 r :
  nset k v ((k0, v0) :: r) =
  if k =? k0 then (k0, v) :: r else (k0, v0) :: nset k v r.
Proof. reflexivity. Qed.

Lemma nmem_get k d : nmem k d = true <-> exists n, nget k d = Some n.
Proof.
  unfold nmem, nget, PyDict.mem.
  destruct (PyDict.get String.eqb k d) as [n|].
  - split; [eauto | reflexivity].
  - split; [discriminate | intros [n H]; discriminate].
Qed.

Lemma nmem_in_keys k d : nmem k d = true <-> In k (nkeys d).
Proof.
  rewrite nmem_get. induction d as [|[k0 v] r IH]; simpl.
  - split; [intros [n H]; discriminate | tauto].
  - rewrite nget_cons. destruct (String.eqb_spec k k0) as [->|Hne].
    + split; eauto.
    + rewrite IH. split; [tauto | intros [H|H]; [congruence | exact H]].
Qed.

Lemma nget_nadjust f k k' d :
  nget k' (nadjust f k d) =
  if k' =? k then option_map f (nget k' d) else nget k' d.
Proof.
  induction d as [|[k0 v] r IH]; simpl.
  - now destruct (k' =? k).
  - rewrite nadjust_cons. destruct (String.eqb_spec k k0) as [->|Hne].
    + rewrite !nget_cons. destruct (String.eqb_spec k' k0); reflexivity.
    + rewrite !nget_cons, IH.
      destruct (String.eqb_spec k' k0) as [->|Hne'].
      * destruct (String.eqb_spec k0 k); [congruence | reflexivity].
      * reflexivity.
Qed.

Lemma nkeys_nadjust f k d : nkeys (nadjust f k d) = nkeys d.
Proof.
  induction d as [|[k0 v] r IH]; simpl; [reflexivity|].
  rewrite nadjust_cons. destruct (k =? k0); simpl; [reflexivity|].
  f_equal. exact IH.
Qed.

Lemma nget_nset k v k' d :
  nget k' (nset k v d) = if k' =? k then Some v else nget k' d.
Proof.
  induction d as [|[k0 v0] r IH]; simpl.
  - change (nset k v []) with [(k, v)]. rewrite nget_cons. now destruct (k' =? k).
  - rewrite nset_cons. destruct (String.eqb_spec k k0) as [->|Hne].
    + rewrite !nget_cons. destruct (String.eqb_spec k' k0); reflexivity.
    + rewrite !nget_cons, IH.
      destruct (String.eqb_spec k' k0) as [->|Hne'].
      * destruct (String.eqb_spec k0 k); [congruence | reflexivity].
      * reflexivity.
Qed.

Lemma nkeys_nset_in k v d x : In x (nkeys (nset k v d)) <-> x = k \/ In x (nkeys d).
Proof.
  induction d as [|[k0 v0] r IH]; simpl.
  - change (nset k v []) with [(k, v)]. simpl. intuition congruence.
  - rewrite nset_cons. destruct (String.eqb_spec k k0) as [->|Hne]; simpl.
    + intuition congruence.
    + change (In x (map fst (nset k v r))) with (In x (nkeys (nset k v r))).
      rewrite IH. unfold nkeys, PyDict.keys. tauto.
Qed.

Lemma nodup_nset k v d : NoDup (nkeys d) -> NoDup (nkeys (nset k v d)).
Proof.
  induction d as [|[k0 v0] r IH]; simpl; intros Hnd.
  - change (nset k v []) with [(k, v)]. simpl. constructor; [tauto | constructor].
  - rewrite nset_cons. inversion Hnd as [|? ? Hnotin Hnd']; subst.
    destruct (String.eqb_spec k k0) as [->|Hne]; simpl.
    + now constructor.
    + constructor; [|now apply IH].
      intros Hin. apply (nkeys_nset_in k v r k0) in Hin.
      destruct Hin; [congruence | tauto].
Qed.

Lemma nget_update_node_visuals cur k d :
  nget k (update_node_visuals cur d) =
  option_map (update_visual_state (id_is k cur)) (nget k d).
Proof.
  induction d as [|[k0 v] r IH]; simpl; [reflexivity|].
  rewrite !nget_cons. destruct (String.eqb_spec k k0) as [->|Hne]; [reflexivity|].
  exact IH.
Qed.

Lemma nkeys_update_node_visuals cur d : nkeys (update_node_visuals cur d) = nkeys d.
Proof.
  unfold nkeys, PyDict.keys, update_node_visuals. rewrite map_map. reflexivity.
Qed.

Lemma nmem_congr k d d' : nkeys d' = nkeys d -> nmem k d' = nmem k d.
Proof.
  intros H. apply eq_true_iff_eq. rewrite !nmem_in_keys. now rewrite H.
Qed.

(** ** What a move does to the state of each node *)

Lemma unlock_step_eq d r t :
  unlock_step (d, r) t =
  match nget t d with
  | Some n =>
      if node_state n =? locked
      then (nadjust (set_state unlocked) t d, r ++ [Pop t])
      else (d, r)
  | None => (d, r)
  end.
Proof. reflexivity. Qed.

Lemma unlock_cascade_cons t ts d r :
  unlock_cascade (t :: ts) d r =
  unlock_cascade ts (fst (unlock_step (d, r) t)) (snd (unlock_step (d, r) t)).
Proof.
  unfold unlock_cascade.
  change (fold_left unlock_step (t :: ts) (d, r))
    with (fold_left unlock_step ts (unlock_step (d, r) t)).
  now rewrite <- surjective_pairing.
Qed.

Lemma nkeys_unlock_cascade ts : forall d r,
  nkeys (fst (unlock_cascade ts d r)) = nkeys d.
Proof.
  induction ts as [|t ts IH]; intros d r; [reflexivity|].
  rewrite unlock_cascade_cons, IH, unlock_step_eq.
  destruct (nget t d) as [n|]; [|reflexivity].
  destruct (node_state n =? locked); [|reflexivity].
  apply nkeys_nadjust.
Qed.

Lemma set_state_same n : set_state (node_state n) n = n.
Proof. now destruct n. Qed.

Lemma cascade_state_not_locked ts k s : s <> locked -> cascade_state ts k s = s.
Proof.
  intros H. unfold cascade_state. apply String.eqb_neq in H. rewrite H.
  now rewrite andb_false_r.
Qed.

Lemma nget_unlock_cascade ts : forall d r k,
  nget k (fst (unlock_cascade ts d r)) =
  option_map (restate (cascade_state ts k)) (nget k d).
Proof.
  induction ts as [|t ts IH]; intros d r k.
  - unfold restate, cascade_state. simpl.
    destruct (nget k d) as [n|]; simpl; [|reflexivity].
    now rewrite set_state_same.
  - rewrite unlock_cascade_cons, IH, unlock_step_eq.
    destruct (nget t d) as [n|] eqn:Hget.
    + destruct (String.eqb_spec (node_state n) locked) as [Hl|Hl]; simpl fst.
      * rewrite nget_nadjust.
        destruct (String.eqb_spec k t) as [->|Hne].
        -- rewrite Hget. simpl. unfold restate. simpl node_state.
           rewrite cascade_state_not_locked by discriminate.
           unfold cascade_state. simpl existsb.
           now rewrite String.eqb_refl, Hl.
        -- unfold restate, cascade_state. simpl existsb.
           apply String.eqb_neq in Hne. now rewrite Hne.
      * destruct (String.eqb_spec k t) as [->|Hne].
        -- rewrite Hget. simpl. unfold restate.
           now rewrite !cascade_state_not_locked.
        -- unfold restate, cascade_state. simpl existsb.
           apply String.eqb_neq in Hne. now rewrite Hne.
    + simpl fst. destruct (String.eqb_spec k t) as [->|Hne].
      * now rewrite Hget.
      * unfold restate, cascade_state. simpl existsb.
        apply String.eqb_neq in Hne. now rewrite Hne.
Qed.

Lemma nget_complete_prev prev c d k :
  nget c d = Some prev ->
  nget k (complete_prev prev c d) =
  option_map (restate (fun s => if (k =? c) && (s =? unlocked) then completed else s))
             (nget k d).
Proof.
  intros Hc. unfold complete_prev, restate.
  destruct (String.eqb_spec (node_state prev) unlocked) as [Hu|Hu].
  - rewrite nget_nadjust. destruct (String.eqb_spec k c) as [->|Hne]; simpl.
    + rewrite Hc. simpl. now rewrite Hu.
    + destruct (nget k d); simpl; [|reflexivity]. now rewrite set_state_same.
  - destruct (String.eqb_spec k c) as [->|Hne]; simpl.
    + rewrite Hc. simpl. apply String.eqb_neq in Hu. rewrite Hu.
      now rewrite set_state_same.
    + destruct (nget k d); simpl; [|reflexivity]. now rewrite set_state_same.
Qed.

Lemma nget_unlock_landed x X d k :
  nget X d = Some x ->
  nget k (unlock_landed x X d) = option_map (restate (land_state X k)) (nget k d).
Proof.
  intros HX. unfold unlock_landed, restate, land_state.
  destruct (String.eqb_spec (node_state x) locked) as [Hl|Hl].
  - rewrite nget_nadjust. destruct (String.eqb_spec k X) as [->|Hne]; simpl.
    + rewrite HX. simpl. now rewrite Hl.
    + destruct (nget k d); simpl; [|reflexivity]. now rewrite set_state_same.
  - destruct (String.eqb_spec k X) as [->|Hne]; simpl.
    + rewrite HX. simpl. apply String.eqb_neq in Hl. rewrite Hl.
      now rewrite set_state_same.
    + destruct (nget k d); simpl; [|reflexivity]. now rewrite set_state_same.
Qed.

Lemma nkeys_complete_prev prev c d : nkeys (complete_prev prev c d) = nkeys d.
Proof.
  unfold complete_prev. destruct (node_state prev =? unlocked); [|reflexivity].
  apply nkeys_nadjust.
Qed.

Lemma nkeys_unlock_landed x X d : nkeys (unlock_landed x X d) = nkeys d.
Proof.
  unfold unlock_landed. destruct (node_state x =? locked); [|reflexivity].
  apply nkeys_nadjust.
Qed.

Lemma nget_vacate_V1 w k :
  nget k (V1.vacate w) =
  option_map (restate (vacate_state (current_player_node_id w) k))
             (nget k (all_level_nodes w)).
Proof.
  unfold V1.vacate, vacate_state, restate.
  assert (Hid : forall d : NodeDict,
             nget k d = option_map (fun n => set_state (node_state n) n) (nget k d)).
  { intros d. destruct (nget k d); simpl; [|reflexivity]. now rewrite set_state_same. }
  destruct (current_player_node_id w) as [c|]; [|apply Hid].
  destruct (truthy (Some c)) eqn:Ht; [|apply Hid].
  destruct (nget c (all_level_nodes w)) as [prev|] eqn:Hc.
  - rewrite (nget_complete_prev _ _ _ _ Hc). reflexivity.
  - simpl. destruct (String.eqb_spec k c) as [->|Hne]; simpl.
    + now rewrite Hc.
    + apply Hid.
Qed.

Lemma nkeys_vacate_V1 w : nkeys (V1.vacate w) = nkeys (all_level_nodes w).
Proof.
  unfold V1.vacate. destruct (current_player_node_id w) as [c|]; [|reflexivity].
  destruct (truthy (Some c)); [|reflexivity].
  destruct (nget c (all_level_nodes w)); [|reflexivity].
  apply nkeys_complete_prev.
Qed.

(** ** Well-formed worlds *)

Lemma endpoints_in_congr d d' pk :
  nkeys d' = nkeys d -> endpoints_in d' pk = endpoints_in d pk.
Proof.
  intros H. unfold endpoints_in. now rewrite !(nmem_congr _ d d' H).
Qed.

Lemma forallb_endpoints_congr d d' ks :
  nkeys d' = nkeys d ->
  forallb (endpoints_in d') ks = forallb (endpoints_in d) ks.
Proof.
  intros H. induction ks as [|pk ks IH]; simpl; [reflexivity|].
  now rewrite IH, (endpoints_in_congr d d' pk H).
Qed.

Lemma pkeys_update_path_visuals_V1 nodes paths :
  pkeys (V1.update_path_visuals nodes paths) = pkeys paths.
Proof.
  unfold pkeys, PyDict.keys, V1.update_path_visuals. rewrite map_map.
  apply map_ext. intros [pk pe]. simpl.
  destruct (nget (fst pk) nodes); [|reflexivity].
  now destruct (nget (snd pk) nodes).
Qed.

Lemma update_path_visuals_V2_keys nodes : forall paths ps,
  V2.update_path_visuals nodes paths = Some ps -> pkeys ps = pkeys paths.
Proof.
  induction paths as [|[pk pe] rest IH]; simpl; intros ps H.
  - now inversion H.
  - destruct (nget (fst pk) nodes); [|discriminate].
    destruct (nget (snd pk) nodes); [|discriminate].
    destruct (V2.update_path_visuals nodes rest) as [rest'|]; [|discriminate].
    inversion H; subst. simpl. f_equal. now apply IH.
Qed.

Lemma update_path_visuals_V2_total nodes : forall paths,
  forallb (endpoints_in nodes) (pkeys paths) = true ->
  exists ps, V2.update_path_visuals nodes paths = Some ps.
Proof.
  induction paths as [|[pk pe] rest IH]; simpl; intros H.
  - eauto.
  - apply andb_prop in H. destruct H as [Hpk Hrest].
    unfold endpoints_in in Hpk. apply andb_prop in Hpk. destruct Hpk as [H1 H2].
    apply nmem_get in H1. destruct H1 as [n1 H1].
    apply nmem_get in H2. destruct H2 as [n2 H2].
    simpl in H1, H2. rewrite H1, H2.
    destruct (IH Hrest) as [ps Hps]. rewrite Hps. eauto.
Qed.

(** ** The two variants move in the same way *)

Lemma vacate_V2_V1 w d : V2.vacate w = Some d -> d = V1.vacate w.
Proof.
  unfold V2.vacate, V1.vacate.
  destruct (current_player_node_id w) as [c|]; [|now intros [= <-]].
  destruct (truthy (Some c)); [|now intros [= <-]].
  destruct (nget c (all_level_nodes w)); [|discriminate].
  now intros [= <-].
Qed.

Lemma vacate_V2_total w : pointer_ok w = true -> V2.vacate w = Some (V1.vacate w).
Proof.
  unfold pointer_ok, V2.vacate, V1.vacate.
  destruct (current_player_node_id w) as [c|]; [|reflexivity].
  intros H. apply nmem_get in H. destruct H as [n H]. rewrite H.
  now destruct (truthy (Some c)).
Qed.

(** On the nodes, the pointer and the requests, a move of
    [3dworld5.13.25.py] that does not raise is the move of [1.py]. *)
Lemma set_current_player_node_V2_V1 X w w' :
  V2.set_current_player_node X w = Some w' ->
  all_level_nodes w' = all_level_nodes (V1.set_current_player_node X w)
  /\ current_player_node_id w' = current_player_node_id (V1.set_current_player_node X w)
  /\ requests w' = requests (V1.set_current_player_node X w)
  /\ pkeys (paths_entities w') = pkeys (paths_entities w).
Proof.
  unfold V2.set_current_player_node, V1.set_current_player_node.
  destruct (V2.vacate w) as [d|] eqn:Hv; [|discriminate].
  apply vacate_V2_V1 in Hv. subst d.
  destruct (nget X (V1.vacate w)) as [x|]; [|discriminate].
  unfold V2.update_all_visuals, V1.update_all_visuals. simpl.
  match goal with
  | |- context [V2.update_path_visuals ?n ?p] =>
      destruct (V2.update_path_visuals n p) as [ps|] eqn:Hps; [|discriminate]
  end.
  intros [= <-]. simpl. repeat split.
  eapply update_path_visuals_V2_keys; eauto.
Qed.

Lemma nkeys_set_current_player_node_V1 X w :
  nkeys (all_level_nodes (V1.set_current_player_node X w)) = nkeys (all_level_nodes w).
Proof.
  unfold V1.set_current_player_node.
  destruct (nget X (V1.vacate w)) as [x|]; simpl;
    rewrite nkeys_update_node_visuals.
  - now rewrite nkeys_unlock_cascade, nkeys_unlock_landed, nkeys_vacate_V1.
  - apply nkeys_vacate_V1.
Qed.

Lemma pointer_set_current_player_node_V1 X w :
  current_player_node_id (V1.set_current_player_node X w) = Some X.
Proof.
  unfold V1.set_current_player_node.
  now destruct (nget X (V1.vacate w)).
Qed.

Lemma pkeys_set_current_player_node_V1 X w :
  pkeys (paths_entities (V1.set_current_player_node X w)) = pkeys (paths_entities w).
Proof.
  unfold V1.set_current_player_node.
  destruct (nget X (V1.vacate w)); simpl; apply pkeys_update_path_visuals_V1.
Qed.

Lemma set_current_player_node_V2_total X w :
  well_formed w -> nmem X (all_level_nodes w) = true ->
  exists w', V2.set_current_player_node X w = Some w'.
Proof.
  intros [Hp Hpaths] HX. unfold V2.set_current_player_node.
  rewrite (vacate_V2_total w Hp).
  assert (HX1 : nmem X (V1.vacate w) = true).
  { now rewrite (nmem_congr X _ _ (nkeys_vacate_V1 w)). }
  apply nmem_get in HX1. destruct HX1 as [x Hx]. rewrite Hx.
  unfold V2.update_all_visuals. simpl.
  match goal with
  | |- context [V2.update_path_visuals ?n ?p] =>
      destruct (update_path_visuals_V2_total n p) as [ps Hps]
  end.
  - unfold paths_ok in Hpaths. rewrite <- Hpaths.
    apply forallb_endpoints_congr.
    now rewrite nkeys_update_node_visuals, nkeys_unlock_cascade,
      nkeys_unlock_landed, nkeys_vacate_V1.
  - rewrite Hps. eauto.
Qed.

(** The node stored under [k] after a move of [1.py] to a stored [X]. *)
Lemma nget_set_current_player_node_V1 w X x k :
  nget X (all_level_nodes w) = Some x ->
  nget k (all_level_nodes (V1.set_current_player_node X w)) =
  option_map
    (fun n => update_visual_state (k =? X)
                (restate (move_state (current_player_node_id w) X (unlocks x) k) n))
    (nget k (all_level_nodes w)).
Proof.
  intros HX. unfold V1.set_current_player_node.
  pose proof (nget_vacate_V1 w X) as HX1. rewrite HX in HX1. simpl in HX1.
  rewrite HX1. simpl.
  rewrite nget_update_node_visuals, nget_unlock_cascade.
  rewrite (nget_unlock_landed _ _ _ _ HX1), nget_vacate_V1.
  now destruct (nget k (all_level_nodes w)).
Qed.

Lemma nstate_set_current_player_node_V1 w X x k :
  nget X (all_level_nodes w) = Some x ->
  nstate k (all_level_nodes (V1.set_current_player_node X w)) =
  option_map (move_state (current_player_node_id w) X (unlocks x) k)
             (nstate k (all_level_nodes w)).
Proof.
  intros HX. unfold nstate. rewrite (nget_set_current_player_node_V1 _ _ _ _ HX).
  now destruct (nget k (all_level_nodes w)).
Qed.

(** ** Invariants of the worlds of a game *)

Lemma synced_update_node_visuals cur d paths reqs :
  synced {| all_level_nodes := update_node_visuals cur d;
            paths_entities := paths;
            current_player_node_id := cur;
            requests := reqs |}.
Proof.
  intros k n Hin. simpl in *. unfold update_node_visuals in Hin.
  apply in_map_iff in Hin. destruct Hin as [[k0 n0] [Heq _]].
  now inversion Heq.
Qed.

Lemma synced_set_current_player_node_V1 X w :
  synced (V1.set_current_player_node X w).
Proof.
  unfold V1.set_current_player_node.
  destruct (nget X (V1.vacate w)); apply synced_update_node_visuals.
Qed.

Lemma well_formed_set_current_player_node_V1 X w :
  well_formed w -> nmem X (all_level_nodes w) = true ->
  well_formed (V1.set_current_player_node X w).
Proof.
  intros [Hp Hpaths] HX. split.
  - unfold pointer_ok. rewrite pointer_set_current_player_node_V1.
    now rewrite (nmem_congr X _ _ (nkeys_set_current_player_node_V1 X w)).
  - unfold paths_ok. rewrite pkeys_set_current_player_node_V1.
    rewrite (forallb_endpoints_congr _ _ _ (nkeys_set_current_player_node_V1 X w)).
    exact Hpaths.
Qed.

(** A world that agrees with a well-formed one on the keys and the pointer. *)
Lemma well_formed_congr w w' :
  nkeys (all_level_nodes w') = nkeys (all_level_nodes w) ->
  pkeys (paths_entities w') = pkeys (paths_entities w) ->
  current_player_node_id w' = current_player_node_id w ->
  well_formed w -> well_formed w'.
Proof.
  intros Hk Hpk Hc [Hp Hpaths]. split.
  - unfold pointer_ok in *. rewrite Hc.
    destruct (current_player_node_id w); [|reflexivity].
    now rewrite (nmem_congr _ _ _ Hk).
  - unfold paths_ok in *. rewrite Hpk.
    now rewrite (forallb_endpoints_congr _ _ _ Hk).
Qed.

Lemma keyed_by_id_set_current_player_node_V1 X w :
  keyed_by_id w -> nmem X (all_level_nodes w) = true ->
  keyed_by_id (V1.set_current_player_node X w).
Proof.
  intros Hk HX k n. apply nmem_get in HX. destruct HX as [x Hx].
  rewrite (nget_set_current_player_node_V1 _ _ _ _ Hx).
  destruct (nget k (all_level_nodes w)) as [n0|] eqn:Hn0; [|discriminate].
  simpl. intros [= <-]. simpl. now apply Hk.
Qed.

Lemma invariant_add_request r w : invariant w -> invariant (add_request r w).
Proof. intros [H1 H2 H3 H4]. now split. Qed.

Lemma invariant_set_current_player_node_V1 X w :
  invariant w -> nmem X (all_level_nodes w) = true ->
  invariant (V1.set_current_player_node X w).
Proof.
  intros [H1 H2 H3 H4] HX. split.
  - now apply well_formed_set_current_player_node_V1.
  - unfold keys_unique. now rewrite nkeys_set_current_player_node_V1.
  - now apply keyed_by_id_set_current_player_node_V1.
  - apply synced_set_current_player_node_V1.
Qed.

Lemma invariant_handle_node_click_V1 clicked_id w :
  invariant w -> invariant (V1.handle_node_click clicked_id w).
Proof.
  intros Hinv. unfold V1.handle_node_click.
  destruct (nget clicked_id (all_level_nodes w)) as [n|] eqn:Hn; [|exact Hinv].
  destruct (node_state n =? locked); [now apply invariant_add_request|].
  destruct (id_is (level_id n) (current_player_node_id w));
    [now apply invariant_add_request|].
  unfold V1.finish_click.
  destruct (V1.rejects _ n); apply invariant_add_request; [exact Hinv|].
  apply invariant_set_current_player_node_V1; [exact Hinv|].
  rewrite (inv_keyed_by_id w Hinv _ _ Hn). apply nmem_get. eauto.
Qed.

Lemma invariant_set_current_player_node_V2 X w w' :
  invariant w -> nmem X (all_level_nodes w) = true ->
  V2.set_current_player_node X w = Some w' -> invariant w'.
Proof.
  intros Hinv HX Hmove.
  destruct (set_current_player_node_V2_V1 _ _ _ Hmove) as (Hn & Hc & _ & Hpk).
  pose proof (invariant_set_current_player_node_V1 X w Hinv HX) as [H1 H2 H3 H4].
  split.
  - apply (well_formed_congr (V1.set_current_player_node X w)); auto.
    + now rewrite Hn.
    + now rewrite Hpk, pkeys_set_current_player_node_V1.
  - unfold keys_unique. now rewrite Hn.
  - unfold keyed_by_id. now rewrite Hn.
  - unfold synced. now rewrite Hn, Hc.
Qed.

Lemma invariant_handle_node_click_V2 clicked_id w w' :
  invariant w -> V2.handle_node_click clicked_id w = Some w' -> invariant w'.
Proof.
  intros Hinv. unfold V2.handle_node_click.
  destruct (nget clicked_id (all_level_nodes w)) as [n|] eqn:Hn;
    [|now intros [= <-]].
  destruct (node_state n =? locked);
    [intros [= <-]; now apply invariant_add_request|].
  destruct (id_is (level_id n) (current_player_node_id w));
    [intros [= <-]; now apply invariant_add_request|].
  match goal with |- context [if ?c then _ else _] => destruct c end;
    [|intros [= <-]; now apply invariant_add_request].
  destruct (V2.set_current_player_node (level_id n) w) as [w1|] eqn:Hmove;
    [|discriminate].
  intros [= <-]. apply invariant_add_request.
  eapply invariant_set_current_player_node_V2; eauto.
  rewrite (inv_keyed_by_id w Hinv _ _ Hn). apply nmem_get. eauto.
Qed.

(** A click of [3dworld5.13.25.py] on a world of the game raises nothing. *)
Lemma handle_node_click_V2_total clicked_id w :
  invariant w -> exists w', V2.handle_node_click clicked_id w = Some w'.
Proof.
  intros Hinv. unfold V2.handle_node_click.
  destruct (nget clicked_id (all_level_nodes w)) as [n|] eqn:Hn; [|eauto].
  destruct (node_state n =? locked); [eauto|].
  destruct (id_is (level_id n) (current_player_node_id w)); [eauto|].
  match goal with |- context [if ?c then _ else _] => destruct c end; [|eauto].
  destruct (set_current_player_node_V2_total (level_id n) w) as [w1 Hw1].
  - apply Hinv.
  - rewrite (inv_keyed_by_id w Hinv _ _ Hn). apply nmem_get. eauto.
  - rewrite Hw1. eauto.
Qed.

(** ** Start-up *)

Lemma fst_create_nodes_V1 cfg : forall d c,
  fst (fold_left V1.create_node_step cfg (d, c)) = created_nodes cfg d.
Proof.
  induction cfg as [|data cfg IH]; intros d c; [reflexivity|].
  simpl. unfold V1.create_node_step at 2. simpl. apply IH.
Qed.

Lemma fst_create_nodes_V2 cfg : forall d c,
  fst (fold_left V2.create_node_step cfg (d, c)) = created_nodes cfg d.
Proof.
  induction cfg as [|data cfg IH]; intros d c; [reflexivity|].
  simpl. unfold V2.create_node_step at 2. simpl. apply IH.
Qed.

Lemma created_nodes_keys cfg : forall d k,
  In k (nkeys (created_nodes cfg d)) <-> In k (nkeys d) \/ In k (map ld_id cfg).
Proof.
  induction cfg as [|data cfg IH]; intros d k; simpl.
  - tauto.
  - unfold created_nodes in *. simpl. rewrite IH, nkeys_nset_in.
    intuition congruence.
Qed.

Lemma created_nodes_nodup cfg : forall d,
  NoDup (nkeys d) -> NoDup (nkeys (created_nodes cfg d)).
Proof.
  induction cfg as [|data cfg IH]; intros d H; [exact H|].
  unfold created_nodes in *. simpl. apply IH. now apply nodup_nset.
Qed.

Lemma created_nodes_keyed cfg : forall d,
  (forall k n, nget k d = Some n -> level_id n = k) ->
  forall k n, nget k (created_nodes cfg d) = Some n -> level_id n = k.
Proof.
  induction cfg as [|data cfg IH]; intros d H; [exact H|].
  unfold created_nodes in *. simpl. apply IH.
  intros k n. rewrite nget_nset.
  destruct (String.eqb_spec k (ld_id data)) as [->|Hne]; [|apply H].
  now intros [= <-].
Qed.

Lemma pointer_from_cons data cfg c0 c1 p :
  pointer_from cfg c1 p ->
  c1 = c0 \/ c1 = Some (ld_id data) ->
  pointer_from (data :: cfg) c0 p.
Proof.
  unfold pointer_from. destruct p as [c|]; simpl.
  - intros [H|H] [H1|H1]; subst; auto.
    inversion H1; subst. auto.
  - intros -> [H|H]; [now subst | discriminate].
Qed.

Lemma snd_create_nodes_V1 cfg : forall d c0,
  pointer_from cfg c0 (snd (fold_left V1.create_node_step cfg (d, c0))).
Proof.
  induction cfg as [|data cfg IH]; intros d c0.
  - simpl. destruct c0; simpl; auto.
  - simpl. unfold V1.create_node_step at 2. simpl.
    eapply pointer_from_cons; [apply IH|].
    destruct (_ && _); auto.
Qed.

Lemma snd_create_nodes_V2 cfg : forall d c0,
  pointer_from cfg c0 (snd (fold_left V2.create_node_step cfg (d, c0))).
Proof.
  induction cfg as [|data cfg IH]; intros d c0.
  - simpl. destruct c0; simpl; auto.
  - simpl. unfold V2.create_node_step at 2. simpl.
    eapply pointer_from_cons; [apply IH|].
    destruct (_ && _); auto.
Qed.

(** With no initially unlocked record, the node loop leaves the pointer. *)
Lemma snd_create_nodes_V1_none cfg : forall d c0,
  (forall data, In data cfg -> ld_initial_state data <> unlocked) ->
  snd (fold_left V1.create_node_step cfg (d, c0)) = c0.
Proof.
  induction cfg as [|data cfg IH]; intros d c0 H; [reflexivity|].
  simpl. unfold V1.create_node_step at 2. simpl.
  assert (Hd : (ld_initial_state data =? unlocked) = false).
  { apply String.eqb_neq. apply H. now left. }
  rewrite Hd. simpl. apply IH. intros data' Hin. apply H. now right.
Qed.

Lemma snd_create_nodes_V2_none cfg : forall d c0,
  (forall data, In data cfg -> ld_initial_state data <> unlocked) ->
  snd (fold_left V2.create_node_step cfg (d, c0)) = c0.
Proof.
  induction cfg as [|data cfg IH]; intros d c0 H; [reflexivity|].
  simpl. unfold V2.create_node_step at 2. simpl.
  assert (Hd : (ld_initial_state data =? unlocked) = false).
  { apply String.eqb_neq. apply H. now left. }
  rewrite Hd. simpl. apply IH. intros data' Hin. apply H. now right.
Qed.

(** Paths are only created between nodes of the store. *)
Lemma pkeys_pset pk pe : forall paths,
  forall x, In x (pkeys (pset pk pe paths)) -> x = pk \/ In x (pkeys paths).
Proof.
  induction paths as [|[k0 v0] r IH]; intros x; simpl.
  - intros [H|H]; [now left | tauto].
  - unfold pset in *. simpl. destruct (key_eqb pk k0); simpl.
    + tauto.
    + intros [H|H]; [tauto|]. destruct (IH x H); tauto.
Qed.

Lemma forallb_pkeys_pset (P : string * string -> bool) pk pe paths :
  P pk = true -> forallb P (pkeys paths) = true ->
  forallb P (pkeys (pset pk pe paths)) = true.
Proof.
  intros Hpk Hps. apply forallb_forall. intros x Hin.
  apply pkeys_pset in Hin. destruct Hin as [->|Hin]; [exact Hpk|].
  rewrite forallb_forall in Hps. now apply Hps.
Qed.

Lemma endpoints_in_sorted_pair nodes a b :
  nmem a nodes = true -> nmem b nodes = true ->
  endpoints_in nodes (sorted_pair a b) = true.
Proof.
  intros Ha Hb. unfold endpoints_in, sorted_pair.
  destruct (String.ltb b a); simpl; now rewrite Ha, Hb.
Qed.

Lemma create_path_step_ok nodes node_id paths target_id :
  nmem node_id nodes = true ->
  forallb (endpoints_in nodes) (pkeys paths) = true ->
  forallb (endpoints_in nodes) (pkeys (create_path_step nodes node_id paths target_id)) = true.
Proof.
  intros Hn Hps. unfold create_path_step.
  destruct (nmem target_id nodes) eqn:Ht; [|exact Hps].
  destruct (pmem _ paths); [exact Hps|].
  apply forallb_pkeys_pset; [|exact Hps].
  now apply endpoints_in_sorted_pair.
Qed.

Lemma create_paths_from_ok nodes : forall items paths,
  (forall item, In item items -> nmem (fst item) nodes = true) ->
  forallb (endpoints_in nodes) (pkeys paths) = true ->
  forallb (endpoints_in nodes) (pkeys (create_paths_from nodes items paths)) = true.
Proof.
  induction items as [|[node_id node] items IH]; intros paths Hitems Hps;
    [exact Hps|].
  unfold create_paths_from in *. simpl. apply IH.
  - intros item Hin. apply Hitems. now right.
  - assert (Hn : nmem node_id nodes = true) by (apply (Hitems (node_id, node)); now left).
    clear IH Hitems. revert paths Hps.
    induction (unlocks node) as [|t ts IHt]; intros paths Hps; [exact Hps|].
    simpl. apply IHt. now apply create_path_step_ok.
Qed.

Lemma create_paths_ok nodes paths :
  forallb (endpoints_in nodes) (pkeys paths) = true ->
  forallb (endpoints_in nodes) (pkeys (create_paths_from nodes nodes paths)) = true.
Proof.
  apply create_paths_from_ok. intros [k n] Hin. simpl.
  apply nmem_in_keys. change k with (fst (k, n)). now apply in_map.
Qed.

Lemma store_keyed_nadjust_set s k d :
  store_keyed d -> store_keyed (nadjust (set_state s) k d).
Proof.
  intros H k' n. rewrite nget_nadjust.
  destruct (k' =? k); [|apply H].
  destruct (nget k' d) as [n0|] eqn:Hn0; [|discriminate].
  simpl. intros [= <-]. simpl. now apply H.
Qed.

Lemma store_keyed_update_node_visuals cur d :
  store_keyed d -> store_keyed (update_node_visuals cur d).
Proof.
  intros H k n. rewrite nget_update_node_visuals.
  destruct (nget k d) as [n0|] eqn:Hn0; [|discriminate].
  simpl. intros [= <-]. simpl. now apply H.
Qed.

Lemma fallback_V1_post cfg d p :
  (forall x, In x (map ld_id cfg) -> nmem x d = true) ->
  match p with Some c => nmem c d = true | None => True end ->
  store_keyed d ->
  fallback_post cfg d (V1.fallback cfg (d, p)).
Proof.
  intros Hids Hp Hk. unfold V1.fallback, fallback_post.
  destruct cfg as [|first rest].
  - simpl. destruct p; auto.
  - destruct p as [c|]; simpl.
    + auto.
    + assert (Hfirst : nmem (ld_id first) d = true) by (apply Hids; now left).
      destruct (negb (ld_id first =? "") && nmem (ld_id first) d).
      * rewrite (nmem_congr _ _ _ (nkeys_nadjust _ _ d)).
        repeat split; auto using nkeys_nadjust, store_keyed_nadjust_set.
      * auto.
Qed.

Lemma fallback_V2_post cfg d p :
  (forall x, In x (map ld_id cfg) -> nmem x d = true) ->
  match p with Some c => nmem c d = true | None => True end ->
  store_keyed d ->
  exists f, V2.fallback cfg (d, p) = Some f /\ fallback_post cfg d f.
Proof.
  intros Hids Hp Hk. unfold V2.fallback, fallback_post.
  destruct cfg as [|first rest].
  - exists (d, p). simpl. destruct p; auto.
  - assert (Hfirst : nmem (ld_id first) d = true) by (apply Hids; now left).
    simpl fst. simpl snd. destruct (truthy p) eqn:Ht; simpl negb; cbv iota.
    + exists (d, p). simpl. destruct p as [c|]; [auto | discriminate].
    + pose proof Hfirst as Hmem.
      apply nmem_get in Hfirst. destruct Hfirst as [n Hn]. rewrite Hn.
      eexists. split; [reflexivity|]. simpl.
      rewrite (nmem_congr _ _ _ (nkeys_nadjust _ _ d)).
      repeat split; auto using nkeys_nadjust, store_keyed_nadjust_set.
Qed.

(** The visual sync of a world whose pointer and paths are in the store. *)
Lemma invariant_update_all_visuals_V1 w :
  pointer_ok w = true -> paths_ok w = true ->
  NoDup (nkeys (all_level_nodes w)) -> store_keyed (all_level_nodes w) ->
  invariant (V1.update_all_visuals w).
Proof.
  intros Hp Hpaths Hnd Hk. split.
  - apply (well_formed_congr w); simpl; auto.
    + apply nkeys_update_node_visuals.
    + apply pkeys_update_path_visuals_V1.
    + now split.
  - unfold keys_unique. simpl. now rewrite nkeys_update_node_visuals.
  - unfold keyed_by_id. simpl. now apply store_keyed_update_node_visuals.
  - apply synced_update_node_visuals.
Qed.

Lemma update_all_visuals_V2_V1 w w' :
  V2.update_all_visuals w = Some w' ->
  all_level_nodes w' = all_level_nodes (V1.update_all_visuals w)
  /\ current_player_node_id w' = current_player_node_id w
  /\ requests w' = requests w
  /\ pkeys (paths_entities w') = pkeys (paths_entities w).
Proof.
  unfold V2.update_all_visuals.
  match goal with
  | |- context [V2.update_path_visuals ?n ?p] =>
      destruct (V2.update_path_visuals n p) as [ps|] eqn:Hps; [|discriminate]
  end.
  intros [= <-]. simpl. repeat split.
  eapply update_path_visuals_V2_keys; eauto.
Qed.

Lemma invariant_update_all_visuals_V2 w :
  pointer_ok w = true -> paths_ok w = true ->
  NoDup (nkeys (all_level_nodes w)) -> store_keyed (all_level_nodes w) ->
  exists w', V2.update_all_visuals w = Some w' /\ invariant w'.
Proof.
  intros Hp Hpaths Hnd Hk.
  destruct (update_path_visuals_V2_total
              (update_node_visuals (current_player_node_id w) (all_level_nodes w))
              (paths_entities w)) as [ps Hps].
  { unfold paths_ok in Hpaths. rewrite <- Hpaths.
    apply forallb_endpoints_congr. apply nkeys_update_node_visuals. }
  unfold V2.update_all_visuals. rewrite Hps. eexists. split; [reflexivity|].
  apply update_path_visuals_V2_keys in Hps.
  split.
  - apply (well_formed_congr w); simpl; auto.
    + apply nkeys_update_node_visuals.
    + now split.
  - unfold keys_unique. simpl. now rewrite nkeys_update_node_visuals.
  - unfold keyed_by_id. simpl. now apply store_keyed_update_node_visuals.
  - apply synced_update_node_visuals.
Qed.

Lemma created_nodes_ids cfg x :
  In x (map ld_id cfg) -> nmem x (created_nodes cfg []) = true.
Proof.
  intros H. apply nmem_in_keys. apply created_nodes_keys. now right.
Qed.

Lemma created_nodes_store_keyed cfg : store_keyed (created_nodes cfg []).
Proof.
  unfold store_keyed. apply created_nodes_keyed. intros k n H. discriminate.
Qed.

Lemma pointer_from_in_store cfg p :
  pointer_from cfg None p ->
  match p with Some c => nmem c (created_nodes cfg []) = true | None => True end.
Proof.
  destruct p as [c|]; simpl; [|auto].
  intros [H|H]; [discriminate | now apply created_nodes_ids].
Qed.

Lemma invariant_setup_V1 cfg created reqs :
  fst created = created_nodes cfg [] ->
  pointer_from cfg None (snd created) ->
  let w := V1.update_all_visuals
       {| all_level_nodes := fst (V1.fallback cfg created);
          paths_entities := create_paths_from (fst created) (fst created) [];
          current_player_node_id := snd (V1.fallback cfg created);
          requests := reqs |} in
  invariant w /\ (cfg <> [] -> exists c, current_player_node_id w = Some c).
Proof.
  intros Hfst Hsnd.
  assert (Hpost : fallback_post cfg (fst created) (V1.fallback cfg created)).
  { rewrite (surjective_pairing created) at 2. apply fallback_V1_post.
    - rewrite Hfst. apply created_nodes_ids.
    - rewrite Hfst. now apply pointer_from_in_store.
    - rewrite Hfst. apply created_nodes_store_keyed. }
  destruct Hpost as (Hkeys & Hkeyed & Hptr).
  split.
  - apply invariant_update_all_visuals_V1;
      cbn [all_level_nodes current_player_node_id paths_entities].
    + unfold pointer_ok. cbn [all_level_nodes current_player_node_id].
      now destruct (snd (V1.fallback cfg created)).
    + unfold paths_ok. cbn [all_level_nodes paths_entities].
      rewrite (forallb_endpoints_congr _ _ _ Hkeys). now apply create_paths_ok.
    + rewrite Hkeys, Hfst. apply created_nodes_nodup. constructor.
    + exact Hkeyed.
  - intros Hne. cbn [V1.update_all_visuals current_player_node_id].
    destruct (snd (V1.fallback cfg created)); [eauto | contradiction].
Qed.

Lemma invariant_init_V1 cfg : invariant (V1.init cfg).
Proof.
  apply invariant_setup_V1.
  - apply fst_create_nodes_V1.
  - apply snd_create_nodes_V1.
Qed.

Lemma pointer_init_V1 cfg :
  cfg <> [] -> exists c, current_player_node_id (V1.init cfg) = Some c.
Proof.
  apply invariant_setup_V1.
  - apply fst_create_nodes_V1.
  - apply snd_create_nodes_V1.
Qed.

Lemma setup_V2 cfg created reqs :
  fst created = created_nodes cfg [] ->
  pointer_from cfg None (snd created) ->
  exists w,
    (match V2.fallback cfg created with
     | Some final =>
         V2.update_all_visuals
           {| all_level_nodes := fst final;
              paths_entities := create_paths_from (fst created) (fst created) [];
              current_player_node_id := snd final;
              requests := reqs |}
     | None => None
     end) = Some w
    /\ invariant w
    /\ (cfg <> [] -> exists c, current_player_node_id w = Some c).
Proof.
  intros Hfst Hsnd.
  destruct (fallback_V2_post cfg (fst created) (snd created)) as (f & Hf & Hpost).
  { rewrite Hfst. apply created_nodes_ids. }
  { rewrite Hfst. now apply pointer_from_in_store. }
  { rewrite Hfst. apply created_nodes_store_keyed. }
  rewrite <- surjective_pairing in Hf. rewrite Hf.
  destruct Hpost as (Hkeys & Hkeyed & Hptr).
  match goal with
  | |- context [V2.update_all_visuals ?w0] =>
      destruct (invariant_update_all_visuals_V2 w0) as (w & Hw & Hinv)
  end; cbn [all_level_nodes current_player_node_id paths_entities].
  - unfold pointer_ok. cbn [all_level_nodes current_player_node_id].
    now destruct (snd f).
  - unfold paths_ok. cbn [all_level_nodes paths_entities].
    rewrite (forallb_endpoints_congr _ _ _ Hkeys). now apply create_paths_ok.
  - rewrite Hkeys, Hfst. apply created_nodes_nodup. constructor.
  - exact Hkeyed.
  - exists w. split; [exact Hw|]. split; [exact Hinv|].
    intros Hne. apply update_all_visuals_V2_V1 in Hw.
    destruct Hw as (_ & Hc & _). rewrite Hc. simpl.
    destruct (snd f); [eauto | contradiction].
Qed.

Lemma init_V2 cfg :
  exists w, V2.init cfg = Some w /\ invariant w
            /\ (cfg <> [] -> exists c, current_player_node_id w = Some c).
Proof.
  apply setup_V2.
  - apply fst_create_nodes_V2.
  - apply snd_create_nodes_V2.
Qed.

Lemma invariant_reachable_V1 cfg w : V1.reachable cfg w -> invariant w.
Proof.
  induction 1; [apply invariant_init_V1 | now apply invariant_handle_node_click_V1].
Qed.

Lemma invariant_reachable_V2 cfg w : V2.reachable cfg w -> invariant w.
Proof.
  induction 1 as [w Hinit | w clicked_id w' Hr IH Hclick].
  - destruct (init_V2 cfg) as (w0 & Hw0 & Hinv & _). congruence.
  - eapply invariant_handle_node_click_V2; eauto.
Qed.

(** ** The current node *)

Lemma nmem_cons k k0 v r : nmem k ((k0, v) :: r) = (k =? k0) || nmem k r.
Proof.
  unfold nmem, PyDict.mem. simpl. now destruct (k =? k0).
Qed.

Lemma count_current_flags c : forall d,
  NoDup (nkeys d) ->
  (forall k n, In (k, n) d -> is_current_game_node n = (k =? c)) ->
  count_current d = if nmem c d then 1 else 0.
Proof.
  induction d as [|[k0 v] r IH]; intros Hnd Hflags; [reflexivity|].
  inversion Hnd as [|? ? Hnotin Hnd']; subst.
  assert (IH' : count_current r = if nmem c r then 1 else 0).
  { apply IH; [exact Hnd'|]. intros k n Hin. apply Hflags. now right. }
  rewrite nmem_cons. unfold count_current in *. simpl.
  rewrite (Hflags k0 v) by now left.
  destruct (String.eqb_spec k0 c) as [->|Hne].
  - rewrite String.eqb_refl. simpl. rewrite IH'.
    destruct (nmem c r) eqn:Hmem; [|reflexivity].
    apply nmem_in_keys in Hmem. contradiction.
  - apply not_eq_sym in Hne. apply String.eqb_neq in Hne. now rewrite Hne.
Qed.

Lemma single_current_invariant w c :
  invariant w -> current_player_node_id w = Some c -> single_current w.
Proof.
  intros [[Hp _] Hnd _ Hsync] Hc. exists c. split; [exact Hc|].
  assert (Hflags : forall k n, In (k, n) (all_level_nodes w) ->
                               is_current_game_node n = (k =? c)).
  { intros k n Hin. rewrite (Hsync k n Hin), Hc. reflexivity. }
  split; [exact Hflags|].
  rewrite (count_current_flags c _ Hnd Hflags).
  unfold pointer_ok in Hp. rewrite Hc in Hp. now rewrite Hp.
Qed.

Lemma pointer_handle_node_click_V1 clicked_id w :
  (exists c, current_player_node_id w = Some c) ->
  exists c, current_player_node_id (V1.handle_node_click clicked_id w) = Some c.
Proof.
  intros H. unfold V1.handle_node_click, V1.finish_click.
  destruct (nget clicked_id (all_level_nodes w)) as [n|]; [|exact H].
  destruct (node_state n =? locked); [exact H|].
  destruct (id_is _ _); [exact H|].
  destruct (V1.rejects _ n); [exact H|].
  simpl. rewrite pointer_set_current_player_node_V1. eauto.
Qed.

Lemma pointer_handle_node_click_V2 clicked_id w w' :
  V2.handle_node_click clicked_id w = Some w' ->
  (exists c, current_player_node_id w = Some c) ->
  exists c, current_player_node_id w' = Some c.
Proof.
  unfold V2.handle_node_click. intros Hclick H.
  destruct (nget clicked_id (all_level_nodes w)) as [n|];
    [|now inversion Hclick; subst].
  destruct (node_state n =? locked); [now inversion Hclick; subst|].
  destruct (id_is _ _); [now inversion Hclick; subst|].
  match type of Hclick with
  | context [if ?c then _ else _] => destruct c
  end; [|now inversion Hclick; subst].
  destruct (V2.set_current_player_node (level_id n) w) as [w1|] eqn:Hmove;
    [|discriminate].
  inversion Hclick; subst. simpl.
  apply set_current_player_node_V2_V1 in Hmove. destruct Hmove as (_ & Hc & _).
  rewrite Hc, pointer_set_current_player_node_V1. eauto.
Qed.

Lemma pointer_reachable_V1 cfg w :
  cfg <> [] -> V1.reachable cfg w -> exists c, current_player_node_id w = Some c.
Proof.
  intros Hne. induction 1.
  - now apply pointer_init_V1.
  - now apply pointer_handle_node_click_V1.
Qed.

Lemma pointer_reachable_V2 cfg w :
  cfg <> [] -> V2.reachable cfg w -> exists c, current_player_node_id w = Some c.
Proof.
  intros Hne. induction 1 as [w Hinit | w clicked_id w' Hr IH Hclick].
  - destruct (init_V2 cfg) as (w0 & Hw0 & _ & Hc).
    assert (w0 = w) by congruence. subst. auto.
  - eapply pointer_handle_node_click_V2; eauto.
Qed.

(** C1.  With a non-empty configuration, in every world of a game (after
    start-up and after any sequence of clicks, hence after every move a
    click performs), and after a move to any stored node [X] from such a
    world, exactly one node of the store has [is_current_game_node] set:
    the one whose id is [current_player_node_id]; every other node has it
    unset.  This holds for [1.py] and for [3dworld5.13.25.py], whose
    start-up and moves raise nothing here. *)
Theorem C1_single_current_node :
  forall cfg w1 w2 X,
    cfg <> [] ->
    V1.reachable cfg w1 -> V2.reachable cfg w2 ->
    nmem X (all_level_nodes w1) = true -> nmem X (all_level_nodes w2) = true ->
    (single_current (V1.init cfg)
     /\ exists w0, V2.init cfg = Some w0 /\ single_current w0)
    /\ (single_current w1 /\ single_current w2)
    /\ (single_current (V1.set_current_player_node X w1)
        /\ current_player_node_id (V1.set_current_player_node X w1) = Some X)
    /\ (exists w2', V2.set_current_player_node X w2 = Some w2'
                    /\ single_current w2'
                    /\ current_player_node_id w2' = Some X).
Proof.
  intros cfg w1 w2 X Hne Hr1 Hr2 HX1 HX2.
  pose proof (invariant_reachable_V1 _ _ Hr1) as Hinv1.
  pose proof (invariant_reachable_V2 _ _ Hr2) as Hinv2.
  split; [split|split; [split|split]].
  - destruct (pointer_init_V1 cfg Hne) as [c Hc].
    eapply single_current_invariant; [apply invariant_init_V1 | exact Hc].
  - destruct (init_V2 cfg) as (w0 & Hw0 & Hinv & Hc).
    destruct (Hc Hne) as [c Hc']. exists w0. split; [exact Hw0|].
    eapply single_current_invariant; eauto.
  - destruct (pointer_reachable_V1 cfg w1 Hne Hr1) as [c Hc].
    eapply single_current_invariant; eauto.
  - destruct (pointer_reachable_V2 cfg w2 Hne Hr2) as [c Hc].
    eapply single_current_invariant; eauto.
  - split; [|apply pointer_set_current_player_node_V1].
    eapply single_current_invariant.
    + now apply invariant_set_current_player_node_V1.
    + apply pointer_set_current_player_node_V1.
  - destruct (set_current_player_node_V2_total X w2) as [w2' Hw2'];
      [apply Hinv2 | exact HX2 |].
    exists w2'. split; [exact Hw2'|].
    pose proof (invariant_set_current_player_node_V2 _ _ _ Hinv2 HX2 Hw2') as Hinv'.
    destruct (set_current_player_node_V2_V1 _ _ _ Hw2') as (_ & Hc & _).
    rewrite pointer_set_current_player_node_V1 in Hc.
    split; [|exact Hc]. eapply single_current_invariant; eauto.
Qed.

Lemma C1_single_current_node_witness :
  single_current (V1.init levels_data)
  /\ single_current (world_of (V2.init levels_data))
  /\ single_current (V1.set_current_player_node "1-2" (V1.init levels_data)).
Proof.
  destruct (C1_single_current_node levels_data (V1.init levels_data)
              (world_of (V2.init levels_data)) "1-2")
    as ((_ & _) & (H1 & H2) & (H3 & _) & _).
  - discriminate.
  - apply V1.reach_init.
  - apply V2.reach_init. reflexivity.
  - reflexivity.
  - reflexivity.
  - exact (conj H1 (conj H2 H3)).
Defined.

(** ** Node states never go back *)

Lemma advances_refl s : advances s s.
Proof. now left. Qed.

Lemma advances_trans s1 s2 s3 : advances s1 s2 -> advances s2 s3 -> advances s1 s3.
Proof.
  unfold advances.
  intros [H1|[[H1 H1']|[[H1 H1']|[H1 H1']]]] [H2|[[H2 H2']|[[H2 H2']|[H2 H2']]]];
    subst; auto; try discriminate.
  all: auto 6.
Qed.

Lemma advances_not_regresses s s' : advances s s' -> ~ regresses s s'.
Proof.
  unfold advances, regresses.
  intros [H|[[H H']|[[H H']|[H H']]]] [[R R']|[[R R']|[R R']]]; subst; discriminate.
Qed.

Lemma never_back_refl d : never_back d d.
Proof.
  split; [reflexivity|]. intros k s H. exists s.
  auto using advances_refl, advances_not_regresses.
Qed.

Lemma never_back_trans d1 d2 d3 :
  never_back d1 d2 -> never_back d2 d3 -> never_back d1 d3.
Proof.
  intros [Hk1 H1] [Hk2 H2]. split; [congruence|].
  intros k s Hs. destruct (H1 k s Hs) as (s2 & Hs2 & Ha & _).
  destruct (H2 k s2 Hs2) as (s3 & Hs3 & Ha' & _).
  exists s3. split; [exact Hs3|].
  pose proof (advances_trans _ _ _ Ha Ha') as Hadv.
  auto using advances_not_regresses.
Qed.

Lemma vacate_state_advances cur k s : advances s (vacate_state cur k s).
Proof.
  unfold vacate_state.
  destruct (truthy cur && id_is k cur); simpl; [|apply advances_refl].
  destruct (String.eqb_spec s unlocked) as [->|]; [|apply advances_refl].
  right. right. left. auto.
Qed.

Lemma land_state_advances X k s : advances s (land_state X k s).
Proof.
  unfold land_state.
  destruct (k =? X); simpl; [|apply advances_refl].
  destruct (String.eqb_spec s locked) as [->|]; [|apply advances_refl].
  right. left. auto.
Qed.

Lemma cascade_state_advances ts k s : advances s (cascade_state ts k s).
Proof.
  unfold cascade_state.
  destruct (existsb (String.eqb k) ts); simpl; [|apply advances_refl].
  destruct (String.eqb_spec s locked) as [->|]; [|apply advances_refl].
  right. left. auto.
Qed.

Lemma move_state_advances cur X ts k s : advances s (move_state cur X ts k s).
Proof.
  unfold move_state.
  eapply advances_trans; [apply vacate_state_advances|].
  eapply advances_trans; [apply land_state_advances|].
  apply cascade_state_advances.
Qed.

Lemma never_back_set_current_player_node_V1 X w :
  nmem X (all_level_nodes w) = true ->
  never_back (all_level_nodes w) (all_level_nodes (V1.set_current_player_node X w)).
Proof.
  intros HX. apply nmem_get in HX. destruct HX as [x Hx].
  split; [apply nkeys_set_current_player_node_V1|].
  intros k s Hs. rewrite (nstate_set_current_player_node_V1 _ _ _ _ Hx), Hs.
  simpl. eexists. split; [reflexivity|].
  pose proof (move_state_advances (current_player_node_id w) X (unlocks x) k s).
  auto using advances_not_regresses.
Qed.

Lemma never_back_handle_node_click_V1 clicked_id w :
  invariant w ->
  never_back (all_level_nodes w) (all_level_nodes (V1.handle_node_click clicked_id w)).
Proof.
  intros Hinv. unfold V1.handle_node_click, V1.finish_click.
  destruct (nget clicked_id (all_level_nodes w)) as [n|] eqn:Hn;
    [|apply never_back_refl].
  destruct (node_state n =? locked); [apply never_back_refl|].
  destruct (id_is _ _); [apply never_back_refl|].
  destruct (V1.rejects _ n); [apply never_back_refl|].
  simpl. apply never_back_set_current_player_node_V1.
  rewrite (inv_keyed_by_id w Hinv _ _ Hn). apply nmem_get. eauto.
Qed.

Lemma never_back_handle_node_click_V2 clicked_id w w' :
  invariant w -> V2.handle_node_click clicked_id w = Some w' ->
  never_back (all_level_nodes w) (all_level_nodes w').
Proof.
  intros Hinv. unfold V2.handle_node_click.
  destruct (nget clicked_id (all_level_nodes w)) as [n|] eqn:Hn;
    [|intros [= <-]; apply never_back_refl].
  destruct (node_state n =? locked); [intros [= <-]; apply never_back_refl|].
  destruct (id_is _ _); [intros [= <-]; apply never_back_refl|].
  match goal with |- context [if ?c then _ else _] => destruct c end;
    [|intros [= <-]; apply never_back_refl].
  destruct (V2.set_current_player_node (level_id n) w) as [w1|] eqn:Hmove;
    [|discriminate].
  intros [= <-]. simpl.
  apply set_current_player_node_V2_V1 in Hmove. destruct Hmove as (Hnodes & _).
  rewrite Hnodes. apply never_back_set_current_player_node_V1.
  rewrite (inv_keyed_by_id w Hinv _ _ Hn). apply nmem_get. eauto.
Qed.

Lemma run_V1_app pre post w : V1.run (pre ++ post) w = V1.run post (V1.run pre w).
Proof. apply fold_left_app. Qed.

Lemma run_V1_invariant clicks : forall w,
  invariant w ->
  invariant (V1.run clicks w)
  /\ never_back (all_level_nodes w) (all_level_nodes (V1.run clicks w)).
Proof.
  induction clicks as [|c clicks IH]; intros w Hinv; simpl.
  - split; [exact Hinv | apply never_back_refl].
  - destruct (IH (V1.handle_node_click c w)) as [Hinv' Hnb].
    { now apply invariant_handle_node_click_V1. }
    split; [exact Hinv'|].
    eapply never_back_trans; [|exact Hnb].
    now apply never_back_handle_node_click_V1.
Qed.

Lemma run_V2_invariant clicks : forall w,
  invariant w ->
  exists w', V2.run clicks w = Some w' /\ invariant w'
             /\ never_back (all_level_nodes w) (all_level_nodes w').
Proof.
  induction clicks as [|c clicks IH]; intros w Hinv; simpl.
  - exists w. split; [reflexivity|]. split; [exact Hinv | apply never_back_refl].
  - destruct (handle_node_click_V2_total c w Hinv) as [w1 Hw1]. rewrite Hw1.
    destruct (IH w1) as (w' & Hrun & Hinv' & Hnb).
    { eapply invariant_handle_node_click_V2; eauto. }
    exists w'. split; [exact Hrun|]. split; [exact Hinv'|].
    eapply never_back_trans; [|exact Hnb].
    eapply never_back_handle_node_click_V2; eauto.
Qed.

Lemma run_V2_app pre post : forall w w1,
  V2.run pre w = Some w1 -> V2.run (pre ++ post) w = V2.run post w1.
Proof.
  induction pre as [|c pre IH]; intros w w1; simpl.
  - now intros [= <-].
  - destruct (V2.handle_node_click c w) as [w'|]; [|discriminate].
    apply IH.
Qed.

(** C2.  Along any sequence of clicks from the started game, no node's
    state goes back: between the world after the clicks [pre] and the
    world after the further clicks [post], every node is still there and
    its state is the same or further along locked, unlocked, completed;
    none of completed to unlocked, completed to locked, unlocked to
    locked has happened.  For [3dworld5.13.25.py] the whole run raises
    nothing. *)
Theorem C2_states_never_regress :
  forall cfg pre post,
    never_back (all_level_nodes (V1.run pre (V1.init cfg)))
               (all_level_nodes (V1.run (pre ++ post) (V1.init cfg)))
    /\ exists w0 w1 w2,
         V2.init cfg = Some w0
         /\ V2.run pre w0 = Some w1
         /\ V2.run (pre ++ post) w0 = Some w2
         /\ never_back (all_level_nodes w1) (all_level_nodes w2).
Proof.
  intros cfg pre post. split.
  - rewrite run_V1_app.
    apply run_V1_invariant. apply run_V1_invariant. apply invariant_init_V1.
  - destruct (init_V2 cfg) as (w0 & Hw0 & Hinv0 & _).
    destruct (run_V2_invariant pre w0 Hinv0) as (w1 & Hw1 & Hinv1 & _).
    destruct (run_V2_invariant post w1 Hinv1) as (w2 & Hw2 & _ & Hnb).
    exists w0, w1, w2.
    split; [exact Hw0|]. split; [exact Hw1|]. split; [|exact Hnb].
    now rewrite (run_V2_app pre post w0 w1 Hw1).
Qed.

(** ** The unlock cascade of a move *)

Lemma existsb_eqb_in k ts : existsb (String.eqb k) ts = true <-> In k ts.
Proof.
  rewrite existsb_exists. split.
  - intros (y & Hin & Heq). apply String.eqb_eq in Heq. now subst.
  - intros Hin. exists k. split; [exact Hin | apply String.eqb_refl].
Qed.

Lemma id_is_false k cur : cur <> Some k -> id_is k cur = false.
Proof.
  destruct cur as [c|]; simpl; [|reflexivity].
  intros H. apply String.eqb_neq. congruence.
Qed.

Lemma cascade_ok_set_current_player_node_V1 X x w :
  nget X (all_level_nodes w) = Some x ->
  cascade_ok X x w (V1.set_current_player_node X w).
Proof.
  intros Hx. split.
  - intros k Hin Hs.
    rewrite (nstate_set_current_player_node_V1 _ _ _ _ Hx), Hs. simpl. f_equal.
    apply existsb_eqb_in in Hin.
    unfold move_state, cascade_state, land_state, vacate_state. rewrite Hin.
    change (locked =? unlocked) with false. rewrite andb_false_r.
    now destruct (k =? X).
  - intros k Hnotin Hcur Hland.
    rewrite (nstate_set_current_player_node_V1 _ _ _ _ Hx).
    destruct (nstate k (all_level_nodes w)) as [s|] eqn:Hs; [|reflexivity].
    simpl. f_equal.
    unfold move_state, cascade_state, land_state, vacate_state.
    rewrite (id_is_false _ _ Hcur), andb_false_r. simpl.
    assert (Hts : existsb (String.eqb k) (unlocks x) = false).
    { apply not_true_is_false. now rewrite existsb_eqb_in. }
    assert (HX : (k =? X) && (s =? locked) = false).
    { destruct Hland as [Hne|Hne].
      - apply String.eqb_neq in Hne. now rewrite Hne.
      - destruct (String.eqb_spec s locked) as [->|]; [congruence|].
        apply andb_false_r. }
    now rewrite HX, Hts.
Qed.

(** C3, as worded, fails: from the start of [chain_open_data] a click on
    [B] moves there in both files, and node [A], which [B.unlocks] does
    not list, goes from unlocked to completed. *)
Lemma C3_as_stated_fails :
  V1.handle_node_click "B" (V1.init chain_open_data) =
    add_request (MovedTo "Level B")
                (V1.set_current_player_node "B" (V1.init chain_open_data))
  /\ ~ cascade_as_stated "B" (V1.init chain_open_data)
         (V1.set_current_player_node "B" (V1.init chain_open_data))
  /\ exists w0 w1,
       V2.init chain_open_data = Some w0
       /\ V2.set_current_player_node "B" w0 = Some w1
       /\ V2.handle_node_click "B" w0 = Some (add_request (MovedTo "Level B") w1)
       /\ ~ cascade_as_stated "B" w0 w1.
Proof.
  split; [reflexivity|]. split.
  - intros H.
    destruct (H (mkLevelNode "B" "Level B" ["C"] "unlocked" false true) eq_refl)
      as [_ H2].
    specialize (H2 "A"). simpl in H2.
    assert (Hd : Some completed = Some unlocked)
      by (apply H2; intros [E|[]]; discriminate).
    discriminate.
  - eexists. eexists. split; [reflexivity|]. split; [reflexivity|].
    split; [reflexivity|].
    intros H.
    destruct (H (mkLevelNode "B" "Level B" ["C"] "unlocked" false true) eq_refl)
      as [_ H2].
    specialize (H2 "A"). simpl in H2.
    assert (Hd : Some completed = Some unlocked)
      by (apply H2; intros [E|[]]; discriminate).
    discriminate.
Qed.

(** C3, amended.  After a move to a stored node [X] from a well-formed
    world, every node listed in [X.unlocks] that was locked is unlocked,
    and a node outside that list keeps its state unless it is the node
    the pointer was on (the one being vacated) or it is [X] itself and was
    locked.  The move of [3dworld5.13.25.py] raises nothing. *)
Theorem C3_unlock_cascade :
  forall w X x,
    well_formed w ->
    nget X (all_level_nodes w) = Some x ->
    cascade_ok X x w (V1.set_current_player_node X w)
    /\ exists w', V2.set_current_player_node X w = Some w' /\ cascade_ok X x w w'.
Proof.
  intros w X x Hwf Hx.
  pose proof (cascade_ok_set_current_player_node_V1 X x w Hx) as H1.
  split; [exact H1|].
  destruct (set_current_player_node_V2_total X w Hwf) as [w' Hw'].
  { apply nmem_get. eauto. }
  exists w'. split; [exact Hw'|].
  apply set_current_player_node_V2_V1 in Hw'. destruct Hw' as (Hn & _).
  unfold cascade_ok in *. now rewrite Hn.
Qed.

Lemma C3_unlock_cascade_witness :
  cascade_ok "B" (mkLevelNode "B" "Level B" ["C"] "unlocked" false true)
    (V1.init chain_open_data)
    (V1.set_current_player_node "B" (V1.init chain_open_data)).
Proof.
  apply (C3_unlock_cascade (V1.init chain_open_data) "B"
           (mkLevelNode "B" "Level B" ["C"] "unlocked" false true)).
  - split; reflexivity.
  - reflexivity.
Defined.

(** ** The vacated node *)

Lemma move_state_vacated P X ts s :
  P <> "" -> s = unlocked \/ s = completed ->
  move_state (Some P) X ts P s = completed.
Proof.
  intros HP Hs. unfold move_state, cascade_state, land_state, vacate_state.
  simpl. apply String.eqb_neq in HP. rewrite HP, String.eqb_refl. simpl.
  destruct Hs as [->| ->]; simpl; now rewrite !andb_false_r.
Qed.

(** C4.  For a move to a stored node [X] made while the pointer is on a
    stored node [P] (with a non-empty id, as every configured id is) other
    than [X]: if [P] was unlocked before the move it is completed after
    it, and if it was completed it stays completed.  The move of
    [3dworld5.13.25.py] raises nothing. *)
Theorem C4_vacated_node_completed :
  forall w P X p x,
    well_formed w ->
    current_player_node_id w = Some P ->
    P <> "" ->
    X <> P ->
    nget P (all_level_nodes w) = Some p ->
    nget X (all_level_nodes w) = Some x ->
    node_state p = unlocked \/ node_state p = completed ->
    nstate P (all_level_nodes (V1.set_current_player_node X w)) = Some completed
    /\ exists w', V2.set_current_player_node X w = Some w'
                  /\ nstate P (all_level_nodes w') = Some completed.
Proof.
  intros w P X p x Hwf Hcur HP _ Hp Hx Hs.
  assert (H1 : nstate P (all_level_nodes (V1.set_current_player_node X w))
               = Some completed).
  { rewrite (nstate_set_current_player_node_V1 _ _ _ _ Hx), Hcur.
    unfold nstate. rewrite Hp. simpl. f_equal. now apply move_state_vacated. }
  split; [exact H1|].
  destruct (set_current_player_node_V2_total X w Hwf) as [w' Hw'].
  { apply nmem_get. eauto. }
  exists w'. split; [exact Hw'|].
  apply set_current_player_node_V2_V1 in Hw'. destruct Hw' as (Hn & _).
  now rewrite Hn.
Qed.

Lemma C4_vacated_node_completed_witness :
  nstate "A" (all_level_nodes (V1.init chain_open_data)) = Some unlocked
  /\ nstate "A" (all_level_nodes
                   (V1.set_current_player_node "B" (V1.init chain_open_data)))
     = Some completed.
Proof.
  split; [reflexivity|].
  apply (C4_vacated_node_completed (V1.init chain_open_data) "A" "B"
           (mkLevelNode "A" "Level A" ["B"] "unlocked" true true)
           (mkLevelNode "B" "Level B" ["C"] "unlocked" false true)).
  - split; reflexivity.
  - reflexivity.
  - discriminate.
  - discriminate.
  - reflexivity.
  - reflexivity.
  - left. reflexivity.
Defined.

(** ** Paths after a visual sync *)

(** After the sync of [1.py], a path whose endpoints are stored carries
    the directives computed from them. *)
Lemma path_after_sync_V1 nodes paths pk pe node1 node2 :
  In (pk, pe) (V1.update_path_visuals nodes paths) ->
  nget (fst pk) nodes = Some node1 -> nget (snd pk) nodes = Some node2 ->
  pe = V1.path_visual node1 node2.
Proof.
  unfold V1.update_path_visuals. intros Hin H1 H2.
  apply in_map_iff in Hin. destruct Hin as [[pk0 pe0] [Heq _]]. simpl in Heq.
  destruct (nget (fst pk0) nodes) as [n1|] eqn:E1.
  - destruct (nget (snd pk0) nodes) as [n2|] eqn:E2;
      inversion Heq; subst; congruence.
  - inversion Heq; subst. congruence.
Qed.

Lemma path_after_sync_V2 nodes : forall paths ps pk pe node1 node2,
  V2.update_path_visuals nodes paths = Some ps ->
  In (pk, pe) ps ->
  nget (fst pk) nodes = Some node1 -> nget (snd pk) nodes = Some node2 ->
  pe = V2.path_visual node1 node2.
Proof.
  induction paths as [|[pk0 pe0] rest IH]; simpl; intros ps pk pe node1 node2 Hps Hin H1 H2.
  - inversion Hps; subst. contradiction.
  - destruct (nget (fst pk0) nodes) as [n1|] eqn:E1; [|discriminate].
    destruct (nget (snd pk0) nodes) as [n2|] eqn:E2; [|discriminate].
    destruct (V2.update_path_visuals nodes rest) as [rest'|]; [|discriminate].
    inversion Hps; subst. destruct Hin as [Heq|Hin].
    + inversion Heq; subst. congruence.
    + eapply IH; eauto.
Qed.

(** The directives of [1.py]: hidden between two locked nodes, thickest
    exactly when neither endpoint is locked and one of them is current. *)
Lemma path_visual_V1_spec node1 node2 :
  (node_state node1 = locked -> node_state node2 = locked ->
   visible (V1.path_visual node1 node2) = false)
  /\ (thickness (V1.path_visual node1 node2) = 8 <->
      node_state node1 <> locked /\ node_state node2 <> locked
      /\ (is_current_game_node node1 = true \/ is_current_game_node node2 = true)).
Proof.
  unfold V1.path_visual. split.
  - intros -> ->. simpl. now rewrite andb_false_r.
  - destruct (String.eqb_spec (node_state node1) locked) as [E1|E1];
      destruct (String.eqb_spec (node_state node2) locked) as [E2|E2]; simpl;
      try (split; [discriminate | tauto]).
    destruct (is_current_game_node node1), (is_current_game_node node2); simpl;
      try (split; [auto | reflexivity]).
    split; [|intros (_ & _ & [H|H]); discriminate].
    repeat match goal with
           | |- context [if ?c then _ else _] => destruct c
           end; simpl; discriminate.
Qed.

(** The directives of [3dworld5.13.25.py], the same on these two points. *)
Lemma path_visual_V2_spec node1 node2 :
  (node_state node1 = locked -> node_state node2 = locked ->
   visible (V2.path_visual node1 node2) = false)
  /\ (thickness (V2.path_visual node1 node2) = 8 <->
      node_state node1 <> locked /\ node_state node2 <> locked
      /\ (is_current_game_node node1 = true \/ is_current_game_node node2 = true)).
Proof.
  unfold V2.path_visual. split.
  - intros -> ->. reflexivity.
  - destruct (String.eqb_spec (node_state node1) locked) as [E1|E1];
      destruct (String.eqb_spec (node_state node2) locked) as [E2|E2]; simpl;
      try (split; [discriminate | tauto]).
    destruct (is_current_game_node node1), (is_current_game_node node2); simpl;
      try (split; [auto | reflexivity]).
    split; [|intros (_ & _ & [H|H]); discriminate].
    repeat match goal with
           | |- context [if ?c then _ else _] => destruct c
           end; simpl; discriminate.
Qed.

(** After any sync of [1.py], every path between stored nodes is hidden
    when both are locked, and is at its thickest exactly when neither is
    locked and one of them is current. *)
Lemma path_sync_V1 w pk pe node1 node2 :
  In (pk, pe) (paths_entities (V1.update_all_visuals w)) ->
  nget (fst pk) (all_level_nodes (V1.update_all_visuals w)) = Some node1 ->
  nget (snd pk) (all_level_nodes (V1.update_all_visuals w)) = Some node2 ->
  (node_state node1 = locked -> node_state node2 = locked -> visible pe = false)
  /\ (thickness pe = 8 <->
      node_state node1 <> locked /\ node_state node2 <> locked
      /\ (is_current_game_node node1 = true \/ is_current_game_node node2 = true)).
Proof.
  intros Hin H1 H2.
  rewrite (path_after_sync_V1 _ _ _ _ _ _ Hin H1 H2).
  apply path_visual_V1_spec.
Qed.

(** The same after any sync of [3dworld5.13.25.py]. *)
Lemma path_sync_V2 w w' pk pe node1 node2 :
  V2.update_all_visuals w = Some w' ->
  In (pk, pe) (paths_entities w') ->
  nget (fst pk) (all_level_nodes w') = Some node1 ->
  nget (snd pk) (all_level_nodes w') = Some node2 ->
  (node_state node1 = locked -> node_state node2 = locked -> visible pe = false)
  /\ (thickness pe = 8 <->
      node_state node1 <> locked /\ node_state node2 <> locked
      /\ (is_current_game_node node1 = true \/ is_current_game_node node2 = true)).
Proof.
  unfold V2.update_all_visuals.
  destruct (V2.update_path_visuals _ (paths_entities w)) as [ps|] eqn:Hps;
    [|discriminate].
  intros [= <-]. simpl. intros Hin H1 H2.
  rewrite (path_after_sync_V2 _ _ _ _ _ _ _ Hps Hin H1 H2).
  apply path_visual_V2_spec.
Qed.

(** C5.  In the shipped game right after start-up, the pointer is on node
    [1-1] and the path between [1-1] and the locked [1-2] is drawn with
    thickness 3, not 8, in both files: an endpoint is the current node
    and the path is not at its thickest. *)
Theorem C5_thin_path_at_current_node :
  (nget "1-1" (all_level_nodes (V1.init levels_data))
     = Some (mkLevelNode "1-1" "World 1-1" ["1-2"] "unlocked" true true)
   /\ pget ("1-1", "1-2") (paths_entities (V1.init levels_data))
     = Some {| path_color := black; thickness := 3; visible := true |})
  /\ exists w0,
       V2.init levels_data = Some w0
       /\ nget "1-1" (all_level_nodes w0)
          = Some (mkLevelNode "1-1" "World 1-1" ["1-2"] "unlocked" true true)
       /\ pget ("1-1", "1-2") (paths_entities w0)
          = Some {| path_color := black; thickness := 3; visible := true |}.
Proof.
  split; [split; reflexivity|].
  eexists. split; [reflexivity|]. split; reflexivity.
Qed.

(** ** Clicks on a locked node *)

Lemma with_requests_nil w : with_requests [] w = w.
Proof. destruct w. unfold with_requests. simpl. now rewrite app_nil_r. Qed.

Lemma with_requests_cons r rs w :
  with_requests rs (add_request r w) = with_requests (r :: rs) w.
Proof.
  unfold with_requests, add_request. simpl. now rewrite <- app_assoc.
Qed.

Lemma handle_node_click_locked_V1 L node w :
  nget L (all_level_nodes w) = Some node -> node_state node = locked ->
  V1.handle_node_click L w = add_request (Shake (level_id node)) w.
Proof.
  intros Hget Hl. unfold V1.handle_node_click. now rewrite Hget, Hl.
Qed.

Lemma handle_node_click_locked_V2 L node w :
  nget L (all_level_nodes w) = Some node -> node_state node = locked ->
  V2.handle_node_click L w = Some (add_request (Shake (level_id node)) w).
Proof.
  intros Hget Hl. unfold V2.handle_node_click. now rewrite Hget, Hl.
Qed.

(** C6.  In any world, however many times the click handler is called on
    a node [L] whose state is locked, the nodes and their states, the
    paths and the pointer are left untouched; the log of requests only
    grows by one shake of [L] per call, so no unlock (pop) request is ever
    issued, let alone twice.  The same for both files. *)
Theorem C6_locked_click_rejected :
  forall w L node n,
    nget L (all_level_nodes w) = Some node ->
    node_state node = locked ->
    V1.run (repeat L n) w = with_requests (repeat (Shake (level_id node)) n) w
    /\ V2.run (repeat L n) w
       = Some (with_requests (repeat (Shake (level_id node)) n) w).
Proof.
  intros w L node n Hget Hl. revert w Hget.
  induction n as [|n IH]; intros w Hget.
  - simpl. now rewrite with_requests_nil.
  - cbn [repeat V2.run].
    change (V1.run (L :: repeat L n) w)
      with (V1.run (repeat L n) (V1.handle_node_click L w)).
    rewrite (handle_node_click_locked_V1 _ _ _ Hget Hl).
    rewrite (handle_node_click_locked_V2 _ _ _ Hget Hl).
    destruct (IH (add_request (Shake (level_id node)) w) Hget) as [H1 H2].
    rewrite H1, H2. now rewrite with_requests_cons.
Qed.

Lemma C6_locked_click_rejected_witness :
  V1.run ["1-2"; "1-2"; "1-2"] (V1.init levels_data)
  = with_requests [Shake "1-2"; Shake "1-2"; Shake "1-2"] (V1.init levels_data).
Proof.
  apply (C6_locked_click_rejected (V1.init levels_data) "1-2"
           (mkLevelNode "1-2" "World 1-2" ["1-A"; "1-3"] "locked" false false) 3).
  - reflexivity.
  - reflexivity.
Defined.

(** ** The scenario A, B, C *)

(** C7, as worded, fails: in both files the start of [chain_data] has the
    pointer on [A], and after a click on [B] the world is not the
    expected one. *)
Lemma C7_as_stated_fails :
  current_player_node_id (V1.init chain_data) = Some "A"
  /\ ~ moved_to_B (V1.handle_node_click "B" (V1.init chain_data))
  /\ exists w0 w1,
       V2.init chain_data = Some w0
       /\ current_player_node_id w0 = Some "A"
       /\ V2.handle_node_click "B" w0 = Some w1
       /\ ~ moved_to_B w1.
Proof.
  split; [reflexivity|]. split.
  - intros (H & _). discriminate.
  - eexists. eexists. split; [reflexivity|]. split; [reflexivity|].
    split; [reflexivity|]. intros (H & _). discriminate.
Qed.

(** C7, amended.  In the graph A (unlocked, current) -> B (locked) ->
    C (locked), a click on [B] is turned down in both files: the world
    is the started one with a shake of [B] requested, so [A] is still
    unlocked and current, and [B] and [C] are still locked. *)
Theorem C7_click_on_locked_B :
  V1.handle_node_click "B" (V1.init chain_data)
    = add_request (Shake "B") (V1.init chain_data)
  /\ V2.handle_node_click "B" (world_of (V2.init chain_data))
     = Some (add_request (Shake "B") (world_of (V2.init chain_data)))
  /\ V2.init chain_data = Some (V1.init chain_data)
  /\ nstate "A" (all_level_nodes (V1.init chain_data)) = Some unlocked
  /\ current_player_node_id (V1.init chain_data) = Some "A"
  /\ nstate "B" (all_level_nodes (V1.init chain_data)) = Some locked
  /\ nstate "C" (all_level_nodes (V1.init chain_data)) = Some locked
  /\ requests (V1.init chain_data) = [].
Proof. repeat split; reflexivity. Qed.

(** ** Start-up without an unlocked node *)

Lemma started_on_sync first d paths reqs :
  nmem (ld_id first) d = true ->
  started_on first
    (V1.update_all_visuals
       {| all_level_nodes := nadjust (set_state unlocked) (ld_id first) d;
          paths_entities := paths;
          current_player_node_id := Some (ld_id first);
          requests := reqs |}).
Proof.
  intros Hmem. apply nmem_get in Hmem. destruct Hmem as [n Hn].
  split; [reflexivity|]. simpl.
  rewrite nget_update_node_visuals, nget_nadjust, String.eqb_refl, Hn. simpl.
  eexists. split; [reflexivity|]. split; [reflexivity|].
  simpl. apply String.eqb_refl.
Qed.

Lemma start_V1 first rest created reqs :
  fst created = created_nodes (first :: rest) [] ->
  snd created = None ->
  ld_id first <> "" ->
  let w := V1.update_all_visuals
       {| all_level_nodes := fst (V1.fallback (first :: rest) created);
          paths_entities := create_paths_from (fst created) (fst created) [];
          current_player_node_id := snd (V1.fallback (first :: rest) created);
          requests := reqs |} in
  started_on first w
  /\ pkeys (paths_entities w) = pkeys (create_paths (created_nodes (first :: rest) [])).
Proof.
  destruct created as [d p]. simpl fst. simpl snd. intros -> -> Hid.
  assert (Hmem : nmem (ld_id first) (created_nodes (first :: rest) []) = true).
  { apply created_nodes_ids. now left. }
  unfold V1.fallback. cbn [fst snd is_none truthy].
  apply String.eqb_neq in Hid. rewrite Hid, Hmem. cbn [negb andb fst snd]. split.
  - now apply started_on_sync.
  - cbn [V1.update_all_visuals paths_entities].
    apply pkeys_update_path_visuals_V1.
Qed.

Lemma start_V2 first rest created reqs :
  fst created = created_nodes (first :: rest) [] ->
  snd created = None ->
  exists w,
    (match V2.fallback (first :: rest) created with
     | Some final =>
         V2.update_all_visuals
           {| all_level_nodes := fst final;
              paths_entities := create_paths_from (fst created) (fst created) [];
              current_player_node_id := snd final;
              requests := reqs |}
     | None => None
     end) = Some w
    /\ started_on first w
    /\ pkeys (paths_entities w) = pkeys (create_paths (created_nodes (first :: rest) [])).
Proof.
  destruct created as [d p]. simpl fst. simpl snd. intros -> ->.
  assert (Hmem : nmem (ld_id first) (created_nodes (first :: rest) []) = true).
  { apply created_nodes_ids. now left. }
  unfold V2.fallback. cbn [fst snd truthy negb].
  pose proof Hmem as Hget. apply nmem_get in Hget. destruct Hget as [n Hn].
  rewrite Hn. cbn [fst snd].
  destruct (setup_V2 (first :: rest) (created_nodes (first :: rest) [], None) reqs)
    as (w & Hw & _); [reflexivity | reflexivity |].
  unfold V2.fallback in Hw. cbn [fst snd truthy negb] in Hw. rewrite Hn in Hw.
  cbn [fst snd] in Hw.
  exists w. split; [exact Hw|].
  apply update_all_visuals_V2_V1 in Hw. destruct Hw as (Hnodes & Hc & _ & Hpk).
  split.
  - pose proof (started_on_sync first (created_nodes (first :: rest) [])
                  (create_paths_from (created_nodes (first :: rest) [])
                                     (created_nodes (first :: rest) []) [])
                  reqs Hmem) as [H1 H2].
    split; [now rewrite Hc|]. now rewrite Hnodes.
  - exact Hpk.
Qed.

Lemma pkeys_nil (ps : PathDict) : pkeys ps = [] -> ps = [].
Proof. destruct ps; [reflexivity | discriminate]. Qed.

(** C8.  When no record of the configuration is initially unlocked (ids
    being non-empty, as configured ids are), after
    [setup_level_nodes_and_paths] the node of the first record is
    unlocked and is the current node, in both files; in particular for
    the configuration made of that one record without edges, where
    moreover no path is created. *)
Theorem C8_first_node_forced_unlocked :
  forall first rest,
    (forall data, In data (first :: rest) -> ld_initial_state data <> unlocked) ->
    ld_id first <> "" ->
    (started_on first (V1.init (first :: rest))
     /\ exists w0, V2.init (first :: rest) = Some w0 /\ started_on first w0)
    /\ (started_on first (V1.init (alone first))
        /\ paths_entities (V1.init (alone first)) = [])
    /\ exists w0, V2.init (alone first) = Some w0
                  /\ started_on first w0
                  /\ paths_entities w0 = [].
Proof.
  intros first rest Hnone Hid.
  assert (Halone : forall data, In data (alone first) ->
                                ld_initial_state data <> unlocked).
  { intros data [<-|[]]. simpl. apply Hnone. now left. }
  split; [split|split; [split|]].
  - apply start_V1; [apply fst_create_nodes_V1 | | exact Hid].
    now apply snd_create_nodes_V1_none.
  - destruct (start_V2 first rest
                (fold_left V2.create_node_step (first :: rest) ([], None)) [])
      as (w & Hw & Hs & _).
    + apply fst_create_nodes_V2.
    + now apply snd_create_nodes_V2_none.
    + exists w. split; [exact Hw | exact Hs].
  - apply (start_V1 (mkLevelData (ld_id first) (ld_name first) []
                                 (ld_initial_state first)) []);
      [apply fst_create_nodes_V1 | | exact Hid].
    now apply snd_create_nodes_V1_none.
  - reflexivity.
  - destruct (start_V2 (mkLevelData (ld_id first) (ld_name first) []
                                    (ld_initial_state first)) []
                (fold_left V2.create_node_step (alone first) ([], None)) [])
      as (w & Hw & Hs & Hpk).
    + apply fst_create_nodes_V2.
    + now apply snd_create_nodes_V2_none.
    + exists w. split; [exact Hw|]. split; [exact Hs|].
      apply pkeys_nil. exact Hpk.
Qed.

Lemma C8_first_node_forced_unlocked_witness :
  started_on lonely (V1.init [lonely])
  /\ paths_entities (V1.init (alone lonely)) = [].
Proof.
  destruct (C8_first_node_forced_unlocked lonely []) as ((H1 & _) & (_ & H2) & _).
  - intros data [<-|[]]. discriminate.
  - discriminate.
  - exact (conj H1 H2).
Defined.

(** ** The two movement policies *)

(** C9.  The two click handlers are different functions of the world and
    the clicked node.  The started game of [apart_data] is the same
    world [w] in both files, with the pointer on [A]; node [C] is
    unlocked, is not the current node and is joined by no path to it.
    On the click of [C], [1.py] moves the pointer to [C] (completing
    [A]), whereas [3dworld5.13.25.py] leaves the world as it is and
    requests a shake of [C]. *)
Theorem C9_handlers_disagree :
  exists w,
    V1.reachable apart_data w
    /\ V2.reachable apart_data w
    /\ current_player_node_id w = Some "A"
    /\ nstate "C" (all_level_nodes w) = Some unlocked
    /\ V2.get_adjacent_nodes (current_player_node_id w) (paths_entities w) = ["B"]
    /\ V1.handle_node_click "C" w
       = add_request (MovedTo "Level C") (V1.set_current_player_node "C" w)
    /\ current_player_node_id (V1.handle_node_click "C" w) = Some "C"
    /\ nstate "A" (all_level_nodes (V1.handle_node_click "C" w)) = Some completed
    /\ V2.handle_node_click "C" w = Some (add_request (Shake "C") w)
    /\ V2.handle_node_click "C" w <> Some (V1.handle_node_click "C" w).
Proof.
  exists (V1.init apart_data).
  split; [apply V1.reach_init|].
  split; [apply V2.reach_init; reflexivity|].
  repeat (split; [reflexivity|]).
  discriminate.
Qed.

(** ** The last rejection of [1.py] *)

Lemma known_state_advances s s' : known_state s -> advances s s' -> known_state s'.
Proof.
  unfold known_state, advances.
  intros Hs [H|[[_ H]|[[_ H]|[_ H]]]]; subst; auto.
Qed.

Lemma states_known_created cfg : forall d,
  (forall data, In data cfg -> known_state (ld_initial_state data)) ->
  states_known d -> states_known (created_nodes cfg d).
Proof.
  induction cfg as [|data cfg IH]; intros d Hcfg Hd; [exact Hd|].
  unfold created_nodes in *. simpl. apply IH.
  - intros data' Hin. apply Hcfg. now right.
  - intros k n. rewrite nget_nset.
    destruct (k =? ld_id data); [|apply Hd].
    intros [= <-]. simpl. apply Hcfg. now left.
Qed.

Lemma states_known_nadjust_set s k d :
  known_state s -> states_known d -> states_known (nadjust (set_state s) k d).
Proof.
  intros Hs Hd k' n. rewrite nget_nadjust.
  destruct (k' =? k); [|apply Hd].
  destruct (nget k' d); [|discriminate]. simpl. now intros [= <-].
Qed.

Lemma states_known_update_node_visuals cur d :
  states_known d -> states_known (update_node_visuals cur d).
Proof.
  intros Hd k n. rewrite nget_update_node_visuals.
  destruct (nget k d) as [n0|] eqn:Hn0; [|discriminate].
  simpl. intros [= <-]. simpl. eapply Hd; eauto.
Qed.

Lemma states_known_setup_V1 cfg created paths reqs :
  (forall data, In data cfg -> known_state (ld_initial_state data)) ->
  fst created = created_nodes cfg [] ->
  states_known
    (all_level_nodes
       (V1.update_all_visuals
          {| all_level_nodes := fst (V1.fallback cfg created);
             paths_entities := paths;
             current_player_node_id := snd (V1.fallback cfg created);
             requests := reqs |})).
Proof.
  intros Hcfg Hfst. cbn [V1.update_all_visuals all_level_nodes].
  apply states_known_update_node_visuals.
  assert (Hc : states_known (fst created)).
  { rewrite Hfst. apply states_known_created; [exact Hcfg|].
    intros k n H. discriminate. }
  unfold V1.fallback. destruct cfg as [|first rest]; [exact Hc|].
  destruct (is_none (snd created)); [|exact Hc].
  cbn [fst]. destruct (_ && _); [|exact Hc].
  apply states_known_nadjust_set; [|exact Hc].
  right. left. reflexivity.
Qed.

Lemma states_known_set_current_player_node_V1 X w :
  nmem X (all_level_nodes w) = true ->
  states_known (all_level_nodes w) ->
  states_known (all_level_nodes (V1.set_current_player_node X w)).
Proof.
  intros HX Hw k n. apply nmem_get in HX. destruct HX as [x Hx].
  rewrite (nget_set_current_player_node_V1 _ _ _ _ Hx).
  destruct (nget k (all_level_nodes w)) as [n0|] eqn:Hn0; [|discriminate].
  simpl. intros [= <-]. simpl.
  eapply known_state_advances; [eapply Hw; eauto|].
  apply move_state_advances.
Qed.

Lemma states_known_reachable_V1 cfg w :
  (forall data, In data cfg -> known_state (ld_initial_state data)) ->
  V1.reachable cfg w -> states_known (all_level_nodes w).
Proof.
  intros Hcfg. induction 1 as [|w clicked_id Hr IH].
  - apply states_known_setup_V1; [exact Hcfg | apply fst_create_nodes_V1].
  - pose proof (invariant_reachable_V1 _ _ Hr) as Hinv.
    unfold V1.handle_node_click, V1.finish_click.
    destruct (nget clicked_id (all_level_nodes w)) as [n|] eqn:Hn; [|exact IH].
    destruct (node_state n =? locked); [exact IH|].
    destruct (id_is _ _); [exact IH|].
    destruct (V1.rejects _ n); [exact IH|].
    simpl. apply states_known_set_current_player_node_V1; [|exact IH].
    rewrite (inv_keyed_by_id w Hinv _ _ Hn). apply nmem_get. eauto.
Qed.

(** C10.  In a game of [1.py] whose configured initial states are state
    names, a clicked node that is neither locked nor the current node is
    unlocked or completed; so the test of the last rejection is false
    whatever [can_move] is, and the click moves the pointer to the
    clicked node: the value of [can_move], and with it adjacency and the
    presence of a current node, has no bearing on the outcome. *)
Theorem C10_last_rejection_unreachable :
  forall cfg w clicked_id clicked_node any_can_move,
    (forall data, In data cfg -> known_state (ld_initial_state data)) ->
    V1.reachable cfg w ->
    nget clicked_id (all_level_nodes w) = Some clicked_node ->
    node_state clicked_node <> locked ->
    id_is (level_id clicked_node) (current_player_node_id w) = false ->
    (node_state clicked_node = unlocked \/ node_state clicked_node = completed)
    /\ V1.rejects any_can_move clicked_node = false
    /\ V1.finish_click any_can_move clicked_node w
       = add_request (MovedTo (level_name clicked_node))
           (V1.set_current_player_node (level_id clicked_node) w)
    /\ V1.handle_node_click clicked_id w
       = add_request (MovedTo (level_name clicked_node))
           (V1.set_current_player_node (level_id clicked_node) w).
Proof.
  intros cfg w clicked_id n b Hcfg Hr Hn Hl Hcur.
  pose proof (states_known_reachable_V1 cfg w Hcfg Hr _ _ Hn) as Hknown.
  assert (Hs : node_state n = unlocked \/ node_state n = completed).
  { destruct Hknown as [H|H]; [contradiction | exact H]. }
  assert (Hrej : forall b', V1.rejects b' n = false).
  { intros b'. unfold V1.rejects.
    destruct Hs as [-> | ->]; simpl; now rewrite ?andb_false_r. }
  split; [exact Hs|]. split; [apply Hrej|]. split.
  - unfold V1.finish_click. now rewrite Hrej.
  - unfold V1.handle_node_click, V1.finish_click. rewrite Hn, Hcur, Hrej.
    apply String.eqb_neq in Hl. now rewrite Hl.
Qed.

Lemma C10_last_rejection_unreachable_witness :
  V1.handle_node_click "C" (V1.init apart_data)
  = add_request (MovedTo "Level C")
      (V1.set_current_player_node "C" (V1.init apart_data)).
Proof.
  apply (C10_last_rejection_unreachable apart_data (V1.init apart_data) "C"
           (mkLevelNode "C" "Level C" [] "unlocked" false true) false).
  - intros data [<-|[<-|[<-|[]]]]; unfold known_state; simpl; auto.
  - apply V1.reach_init.
  - reflexivity.
  - discriminate.
  - reflexivity.
Defined.

(** ** The world a game starts in *)

Lemma nkeys_nset_new k v : forall d,
  ~ In k (nkeys d) -> nkeys (nset k v d) = nkeys d ++ [k].
Proof.
  induction d as [|[k0 v0] r IH]; intros Hnotin.
  - reflexivity.
  - rewrite nset_cons. simpl in Hnotin.
    destruct (String.eqb_spec k k0) as [->|Hne]; [tauto|].
    simpl. f_equal. apply IH. tauto.
Qed.

Lemma created_nodes_cons data cfg d :
  created_nodes (data :: cfg) d
  = created_nodes cfg (nset (ld_id data) (new_LevelNode data) d).
Proof. reflexivity. Qed.

Lemma created_nodes_get_other cfg : forall d k,
  ~ In k (map ld_id cfg) -> nget k (created_nodes cfg d) = nget k d.
Proof.
  induction cfg as [|data cfg IH]; intros d k Hnotin; [reflexivity|].
  rewrite created_nodes_cons, IH, nget_nset by (simpl in Hnotin; tauto).
  destruct (String.eqb_spec k (ld_id data)) as [->|Hne]; [|reflexivity].
  simpl in Hnotin. tauto.
Qed.

(** With distinct ids, each record's node is stored under its id. *)
Lemma created_nodes_get cfg : forall d data,
  NoDup (map ld_id cfg) -> In data cfg ->
  nget (ld_id data) (created_nodes cfg d) = Some (new_LevelNode data).
Proof.
  induction cfg as [|a cfg IH]; intros d data Hnd Hin; [contradiction|].
  simpl in Hnd. inversion Hnd as [|? ? Hnotin Hnd']; subst.
  rewrite created_nodes_cons. destruct Hin as [->|Hin].
  - rewrite created_nodes_get_other by exact Hnotin.
    now rewrite nget_nset, String.eqb_refl.
  - now apply IH.
Qed.

(** Every stored node was made from a record of its id. *)
Lemma created_nodes_from_record cfg : forall d k n,
  nget k (created_nodes cfg d) = Some n ->
  nget k d = Some n
  \/ exists data, In data cfg /\ ld_id data = k /\ n = new_LevelNode data.
Proof.
  induction cfg as [|a cfg IH]; intros d k n H; [now left|].
  rewrite created_nodes_cons in H. apply IH in H.
  destruct H as [H|(data & Hin & Hid & Hn)].
  - rewrite nget_nset in H.
    destruct (String.eqb_spec k (ld_id a)) as [->|Hne]; [|now left].
    inversion H; subst. right. exists a. simpl. auto.
  - right. exists data. simpl. auto.
Qed.

Lemma created_nodes_nkeys cfg : forall d,
  NoDup (nkeys d ++ map ld_id cfg) ->
  nkeys (created_nodes cfg d) = nkeys d ++ map ld_id cfg.
Proof.
  induction cfg as [|a cfg IH]; intros d Hnd.
  - simpl. now rewrite app_nil_r.
  - rewrite created_nodes_cons. simpl in Hnd.
    assert (Hnotin : ~ In (ld_id a) (nkeys d)).
    { intros Hin. apply NoDup_remove_2 in Hnd. apply Hnd.
      apply in_or_app. now left. }
    assert (Hk : nkeys (nset (ld_id a) (new_LevelNode a) d) = nkeys d ++ [ld_id a])
      by now apply nkeys_nset_new.
    rewrite IH; rewrite Hk, <- app_assoc; [reflexivity | exact Hnd].
Qed.

Lemma first_unlocked_cons a cfg :
  first_unlocked (a :: cfg)
  = if ld_initial_state a =? unlocked then Some (ld_id a) else first_unlocked cfg.
Proof.
  unfold first_unlocked. simpl. now destruct (ld_initial_state a =? unlocked).
Qed.

Lemma first_unlocked_some cfg c :
  first_unlocked cfg = Some c ->
  exists data, In data cfg /\ ld_id data = c /\ ld_initial_state data = unlocked.
Proof.
  unfold first_unlocked.
  destruct (find _ cfg) as [data|] eqn:Hfind; [|discriminate].
  simpl. intros [= <-]. apply find_some in Hfind. destruct Hfind as [Hin Hs].
  apply String.eqb_eq in Hs. eauto.
Qed.

Lemma first_unlocked_none cfg :
  first_unlocked cfg = None ->
  forall data, In data cfg -> ld_initial_state data <> unlocked.
Proof.
  unfold first_unlocked.
  destruct (find _ cfg) as [d|] eqn:Hfind; [discriminate|].
  intros _ data Hin. apply String.eqb_neq.
  exact (find_none _ _ Hfind data Hin).
Qed.

Lemma truthy_nonempty c : c <> "" -> truthy (Some c) = true.
Proof. intros H. simpl. apply String.eqb_neq in H. now rewrite H. Qed.

(** The node loop of [1.py] leaves the pointer on the first initially
    unlocked record. *)
Lemma snd_create_nodes_V1_first cfg : forall d c0,
  snd (fold_left V1.create_node_step cfg (d, c0))
  = match c0 with Some _ => c0 | None => first_unlocked cfg end.
Proof.
  induction cfg as [|a cfg IH]; intros d c0.
  - simpl. now destruct c0.
  - simpl. unfold V1.create_node_step at 2. simpl. rewrite IH, first_unlocked_cons.
    destruct (ld_initial_state a =? unlocked), c0; reflexivity.
Qed.

(** So does the node loop of [3dworld5.13.25.py] when ids are non-empty. *)
Lemma snd_create_nodes_V2_first cfg : forall d c0,
  ids_nonempty cfg ->
  truthy c0 = true \/ c0 = None ->
  snd (fold_left V2.create_node_step cfg (d, c0))
  = match c0 with Some _ => c0 | None => first_unlocked cfg end.
Proof.
  induction cfg as [|a cfg IH]; intros d c0 Hids Hc0.
  - simpl. now destruct c0.
  - simpl. unfold V2.create_node_step at 2. simpl.
    assert (Hids' : ids_nonempty cfg) by (intros x Hx; apply Hids; now right).
    assert (Ha : truthy (Some (ld_id a)) = true)
      by (apply truthy_nonempty, Hids; now left).
    rewrite first_unlocked_cons.
    destruct (ld_initial_state a =? unlocked); simpl.
    + destruct Hc0 as [Ht| ->].
      * rewrite Ht. simpl. rewrite IH by auto. destruct c0; [reflexivity|discriminate].
      * simpl. now rewrite IH by auto.
    + now rewrite IH by auto.
Qed.

Lemma setup_V1_start cfg created :
  ids_nonempty cfg ->
  fst created = created_nodes cfg [] ->
  snd created = first_unlocked cfg ->
  {| all_level_nodes := fst (V1.fallback cfg created);
     paths_entities := create_paths_from (fst created) (fst created) [];
     current_player_node_id := snd (V1.fallback cfg created);
     requests := [] |}
  = start_world cfg.
Proof.
  destruct created as [d p]. simpl fst. simpl snd. intros Hids -> ->.
  unfold start_world, start_nodes, start_pointer, V1.fallback, create_paths.
  destruct cfg as [|first rest].
  - reflexivity.
  - cbn [fst snd hd_error option_map].
    destruct (first_unlocked (first :: rest)) as [c|]; [reflexivity|].
    cbn [is_none fst snd].
    rewrite truthy_nonempty by (apply Hids; now left).
    rewrite created_nodes_ids by now left.
    reflexivity.
Qed.

Lemma init_V1_start cfg :
  ids_nonempty cfg -> V1.init cfg = V1.update_all_visuals (start_world cfg).
Proof.
  intros Hids. unfold V1.init, V1.setup_level_nodes_and_paths.
  f_equal. apply setup_V1_start; [exact Hids | apply fst_create_nodes_V1 |].
  apply (snd_create_nodes_V1_first cfg [] None).
Qed.

Lemma setup_V2_start cfg created :
  ids_nonempty cfg ->
  fst created = created_nodes cfg [] ->
  snd created = first_unlocked cfg ->
  (match V2.fallback cfg created with
   | Some final =>
       V2.update_all_visuals
         {| all_level_nodes := fst final;
            paths_entities := create_paths_from (fst created) (fst created) [];
            current_player_node_id := snd final;
            requests := [] |}
   | None => None
   end)
  = V2.update_all_visuals (start_world cfg).
Proof.
  destruct created as [d p]. simpl fst. simpl snd. intros Hids -> ->.
  unfold start_world, start_nodes, start_pointer, V2.fallback, create_paths.
  destruct cfg as [|first rest].
  - reflexivity.
  - cbn [fst snd hd_error option_map].
    destruct (first_unlocked (first :: rest)) as [c|] eqn:Hfu.
    + destruct (first_unlocked_some _ _ Hfu) as (data & Hin & <- & _).
      rewrite truthy_nonempty by now apply Hids.
      reflexivity.
    + cbn [truthy negb].
      assert (Hmem : nmem (ld_id first) (created_nodes (first :: rest) []) = true)
        by (apply created_nodes_ids; now left).
      apply nmem_get in Hmem. destruct Hmem as [n Hn]. rewrite Hn.
      reflexivity.
Qed.

Lemma init_V2_start cfg :
  ids_nonempty cfg -> V2.init cfg = V2.update_all_visuals (start_world cfg).
Proof.
  intros Hids. unfold V2.init, V2.setup_level_nodes_and_paths.
  apply setup_V2_start; [exact Hids | apply fst_create_nodes_V2 |].
  apply (snd_create_nodes_V2_first cfg [] None); auto.
Qed.

Lemma levels_data_ids_nonempty : ids_nonempty levels_data.
Proof.
  intros data Hin. simpl in Hin.
  repeat (destruct Hin as [<-|Hin]; [discriminate|]). contradiction.
Qed.

Lemma levels_data_ids_distinct : NoDup (map ld_id levels_data).
Proof.
  simpl. repeat (constructor; [simpl; intuition discriminate|]). constructor.
Qed.

Lemma init_V2_nodes cfg :
  ids_nonempty cfg ->
  exists w0, V2.init cfg = Some w0
             /\ all_level_nodes w0 = all_level_nodes (V1.init cfg)
             /\ current_player_node_id w0 = current_player_node_id (V1.init cfg)
             /\ pkeys (paths_entities w0) = pkeys (paths_entities (V1.init cfg)).
Proof.
  intros Hids. destruct (init_V2 cfg) as (w0 & Hw0 & _).
  exists w0. split; [exact Hw0|].
  rewrite init_V2_start in Hw0 by exact Hids.
  apply update_all_visuals_V2_V1 in Hw0. destruct Hw0 as (Hn & Hc & _ & Hpk).
  rewrite init_V1_start by exact Hids.
  split; [exact Hn|]. split; [exact Hc|].
  rewrite Hpk. symmetry. apply pkeys_update_path_visuals_V1.
Qed.

(** X1.  A game starts on the first initially unlocked record or, when
    there is none, on the first record; with no record at all the pointer
    stays unset.  Both files, ids being non-empty. *)
Theorem X1_start_pointer :
  forall cfg,
    ids_nonempty cfg ->
    current_player_node_id (V1.init cfg) = start_pointer cfg
    /\ exists w0, V2.init cfg = Some w0
                  /\ current_player_node_id w0 = start_pointer cfg.
Proof.
  intros cfg Hids.
  assert (H1 : current_player_node_id (V1.init cfg) = start_pointer cfg).
  { now rewrite init_V1_start. }
  split; [exact H1|].
  destruct (init_V2_nodes cfg Hids) as (w0 & Hw0 & _ & Hc & _).
  exists w0. split; [exact Hw0|]. now rewrite Hc.
Qed.

Lemma X1_start_pointer_witness :
  current_player_node_id (V1.init levels_data) = Some "1-1".
Proof.
  apply (X1_start_pointer levels_data). exact levels_data_ids_nonempty.
Defined.

Lemma start_nodes_get cfg data :
  NoDup (map ld_id cfg) -> In data cfg ->
  nget (ld_id data) (start_nodes cfg)
  = Some (set_state (start_state cfg data) (new_LevelNode data)).
Proof.
  intros Hnd Hin. unfold start_nodes, start_state.
  pose proof (created_nodes_get cfg [] data Hnd Hin) as Hget.
  destruct (first_unlocked cfg); [exact Hget|].
  destruct cfg as [|first rest]; [contradiction|].
  cbn [hd_error]. rewrite nget_nadjust, Hget.
  now destruct (ld_id data =? ld_id first).
Qed.

Lemma start_nodes_nkeys cfg :
  NoDup (map ld_id cfg) -> nkeys (start_nodes cfg) = map ld_id cfg.
Proof.
  intros Hnd.
  assert (Hc : nkeys (created_nodes cfg []) = map ld_id cfg)
    by (apply (created_nodes_nkeys cfg []); exact Hnd).
  unfold start_nodes. destruct (first_unlocked cfg); [exact Hc|].
  destruct cfg as [|first rest]; [exact Hc|].
  now rewrite nkeys_nadjust.
Qed.

(** X2.  With distinct non-empty ids, set-up stores the nodes under the
    configured ids in the configured order, and the node of each record
    carries its id, name and unlock list and starts in [start_state]: its
    configured state, except that the first record is unlocked when no
    record is initially unlocked.  In particular set-up unlocks none of
    the start node's successors.  The store of [3dworld5.13.25.py] is the
    same. *)
Theorem X2_store_after_setup :
  forall cfg data,
    ids_nonempty cfg ->
    NoDup (map ld_id cfg) ->
    In data cfg ->
    nkeys (all_level_nodes (V1.init cfg)) = map ld_id cfg
    /\ (exists n,
          nget (ld_id data) (all_level_nodes (V1.init cfg)) = Some n
          /\ level_id n = ld_id data
          /\ level_name n = ld_name data
          /\ unlocks n = ld_unlocks data
          /\ node_state n = start_state cfg data)
    /\ exists w0, V2.init cfg = Some w0
                  /\ all_level_nodes w0 = all_level_nodes (V1.init cfg).
Proof.
  intros cfg data Hids Hnd Hin. split; [|split].
  - rewrite init_V1_start by exact Hids. simpl.
    rewrite nkeys_update_node_visuals. now apply start_nodes_nkeys.
  - rewrite init_V1_start by exact Hids. simpl.
    rewrite nget_update_node_visuals, (start_nodes_get cfg data Hnd Hin).
    simpl. eexists. split; [reflexivity|]. repeat split.
  - destruct (init_V2_nodes cfg Hids) as (w0 & Hw0 & Hn & _).
    exists w0. auto.
Qed.

Lemma X2_store_after_setup_witness :
  nkeys (all_level_nodes (V1.init levels_data))
  = ["1-1"; "1-2"; "1-A"; "1-3"; "1-Castle"; "2-1"]
  /\ exists n,
       nget "1-2" (all_level_nodes (V1.init levels_data)) = Some n
       /\ level_id n = "1-2"
       /\ level_name n = "World 1-2"
       /\ unlocks n = ["1-A"; "1-3"]
       /\ node_state n = "locked".
Proof.
  destruct (X2_store_after_setup levels_data
              (mkLevelData "1-2" "World 1-2" ["1-A"; "1-3"] "locked"))
    as (H1 & H2 & _).
  - exact levels_data_ids_nonempty.
  - exact levels_data_ids_distinct.
  - simpl. auto.
  - exact (conj H1 H2).
Defined.

(** ** A game with a single open node *)

Lemma with_requests_app rs1 rs2 w :
  with_requests rs2 (with_requests rs1 w) = with_requests (rs1 ++ rs2) w.
Proof. unfold with_requests. simpl. now rewrite app_assoc. Qed.

Lemma add_request_with_requests r w : add_request r w = with_requests [r] w.
Proof. reflexivity. Qed.

Lemma stuck_click_V1 clicked_id w :
  only_current_open w ->
  exists rs, V1.handle_node_click clicked_id w = with_requests rs w
             /\ Forall quiet rs.
Proof.
  intros Hw. unfold V1.handle_node_click.
  destruct (nget clicked_id (all_level_nodes w)) as [n|] eqn:Hn.
  - destruct (Hw _ _ Hn) as [Hl|Hc].
    + rewrite Hl. simpl. exists [Shake (level_id n)].
      split; [reflexivity | repeat constructor].
    + rewrite Hc. destruct (node_state n =? locked).
      * exists [Shake (level_id n)]. split; [reflexivity | repeat constructor].
      * exists [EnteringLevel (level_name n)].
        split; [reflexivity | repeat constructor].
  - exists []. split; [now rewrite with_requests_nil | constructor].
Qed.

Lemma stuck_click_V2 clicked_id w :
  only_current_open w ->
  V2.handle_node_click clicked_id w = Some (V1.handle_node_click clicked_id w).
Proof.
  intros Hw. unfold V2.handle_node_click, V1.handle_node_click.
  destruct (nget clicked_id (all_level_nodes w)) as [n|] eqn:Hn; [|reflexivity].
  destruct (Hw _ _ Hn) as [Hl|Hc].
  - rewrite Hl. reflexivity.
  - rewrite Hc. now destruct (node_state n =? locked).
Qed.

Lemma stuck_run clicks : forall w,
  only_current_open w ->
  (exists rs, V1.run clicks w = with_requests rs w /\ Forall quiet rs)
  /\ V2.run clicks w = Some (V1.run clicks w).
Proof.
  induction clicks as [|c clicks IH]; intros w Hw.
  - split; [|reflexivity]. exists []. split; [now rewrite with_requests_nil | constructor].
  - destruct (stuck_click_V1 c w Hw) as (rs1 & H1 & Hq1).
    change (V1.run (c :: clicks) w)
      with (V1.run clicks (V1.handle_node_click c w)).
    cbn [V2.run]. rewrite (stuck_click_V2 c w Hw), H1.
    destruct (IH (with_requests rs1 w)) as [(rs & Hrun & Hq) H2].
    { intros k n Hn. exact (Hw k n Hn). }
    split; [|exact H2].
    exists (rs1 ++ rs). rewrite Hrun, with_requests_app. split; [reflexivity|].
    apply Forall_app. auto.
Qed.

Lemma only_current_open_start cfg :
  one_way_in cfg -> only_current_open (V1.update_all_visuals (start_world cfg)).
Proof.
  intros Hcfg k n. simpl. rewrite nget_update_node_visuals.
  destruct (nget k (start_nodes cfg)) as [n0|] eqn:Hn0; [|discriminate].
  simpl. intros [= <-]. simpl.
  assert (Hrec : forall m, nget k (created_nodes cfg []) = Some m ->
                   (node_state m = locked /\ level_id m = k \/
                    id_is (level_id m) (start_pointer cfg) = true)
                   /\ level_id m = k).
  { intros m Hm. apply created_nodes_from_record in Hm.
    destruct Hm as [Hm|(data & Hin & Hid & ->)]; [discriminate|].
    simpl. split; [|exact Hid].
    destruct (Hcfg data Hin) as [Hl|Hp]; [now left|].
    right. rewrite Hp. simpl. apply String.eqb_refl. }
  unfold start_nodes in Hn0.
  destruct (first_unlocked cfg) eqn:Hfu.
  - destruct (Hrec _ Hn0) as [[[Hl _]|Hc] _]; auto.
  - destruct cfg as [|first rest]; [discriminate|].
    rewrite nget_nadjust in Hn0.
    destruct (String.eqb_spec k (ld_id first)) as [->|Hne].
    + destruct (nget (ld_id first) (created_nodes (first :: rest) [])) as [m|] eqn:Hm;
        [|discriminate].
      simpl in Hn0. inversion Hn0; subst. simpl. right.
      destruct (Hrec m eq_refl) as [_ Hid]. rewrite Hid.
      unfold start_pointer. rewrite Hfu. simpl. apply String.eqb_refl.
    + destruct (Hrec _ Hn0) as [[[Hl _]|Hc] _]; auto.
Qed.

(** X3.  When every record but the start one is locked, the game cannot
    progress: whatever is clicked, in whatever order, the nodes, the paths
    and the pointer stay as set-up left them, and the only requests ever
    made are shakes and "entering level" texts (no move, no unlock).
    Set-up does not unlock the start node's successors, and a locked node
    cannot be moved to.  Both files; this is the case of the shipped
    configuration. *)
Theorem X3_single_open_node_game_is_stuck :
  forall cfg clicks,
    ids_nonempty cfg ->
    one_way_in cfg ->
    (exists rs, V1.run clicks (V1.init cfg) = with_requests rs (V1.init cfg)
                /\ Forall quiet rs)
    /\ exists w0 rs, V2.init cfg = Some w0
                     /\ V2.run clicks w0 = Some (with_requests rs w0)
                     /\ Forall quiet rs.
Proof.
  intros cfg clicks Hids Hcfg.
  assert (H1 : only_current_open (V1.init cfg)).
  { rewrite init_V1_start by exact Hids. now apply only_current_open_start. }
  split; [apply stuck_run; exact H1|].
  destruct (init_V2_nodes cfg Hids) as (w0 & Hw0 & Hn & Hc & _).
  assert (H2 : only_current_open w0).
  { unfold only_current_open. rewrite Hn, Hc. exact H1. }
  destruct (stuck_run clicks w0 H2) as [(rs & Hrun & Hq) Hrun2].
  exists w0, rs. split; [exact Hw0|]. split; [|exact Hq].
  now rewrite Hrun2, Hrun.
Qed.

Lemma levels_data_one_way_in : one_way_in levels_data.
Proof.
  intros data Hin. simpl in Hin.
  destruct Hin as [<-|Hin]; [right; reflexivity|].
  repeat (destruct Hin as [<-|Hin]; [left; reflexivity|]). contradiction.
Qed.

Lemma X3_single_open_node_game_is_stuck_witness :
  exists rs,
    V1.run ["1-2"; "1-1"; "2-1"] (V1.init levels_data)
    = with_requests rs (V1.init levels_data)
    /\ Forall quiet rs.
Proof.
  apply (X3_single_open_node_game_is_stuck levels_data ["1-2"; "1-1"; "2-1"]).
  - exact levels_data_ids_nonempty.
  - exact levels_data_one_way_in.
Defined.

(** ** Paths and adjacency *)

Lemma key_eqb_eq a b : key_eqb a b = true <-> a = b.
Proof.
  unfold key_eqb. destruct a as [a1 a2], b as [b1 b2]. simpl.
  rewrite andb_true_iff, !String.eqb_eq. split.
  - intros [-> ->]. reflexivity.
  - intros [= -> ->]. auto.
Qed.

Lemma pmem_in_keys pk : forall paths, pmem pk paths = true <-> In pk (pkeys paths).
Proof.
  induction paths as [|[k0 v0] r IH]; simpl.
  - split; [discriminate | tauto].
  - unfold pmem, PyDict.mem in *. simpl.
    destruct (key_eqb pk k0) eqn:E.
    + apply key_eqb_eq in E. subst. split; auto.
    + rewrite IH. split; [tauto|]. intros [H|H]; [|exact H].
      subst. rewrite (proj2 (key_eqb_eq pk pk) eq_refl) in E. discriminate.
Qed.

Lemma pkeys_pset_in pk pe paths x :
  In x (pkeys (pset pk pe paths)) <-> x = pk \/ In x (pkeys paths).
Proof.
  split; [apply pkeys_pset|].
  induction paths as [|[k0 v0] r IH]; simpl.
  - intros [->|[]]. now left.
  - unfold pset in *. simpl. destruct (key_eqb pk k0) eqn:E; simpl.
    + apply key_eqb_eq in E. subst. intros [->|H]; auto.
    + intros [->|[H|H]]; auto.
Qed.

Lemma nodup_pset pk pe : forall paths,
  NoDup (pkeys paths) -> NoDup (pkeys (pset pk pe paths)).
Proof.
  induction paths as [|[k0 v0] r IH]; simpl; intros Hnd.
  - constructor; [tauto | constructor].
  - inversion Hnd as [|? ? Hnotin Hnd']; subst.
    unfold pset in *. simpl. destruct (key_eqb pk k0) eqn:E; simpl.
    + now constructor.
    + constructor; [|now apply IH].
      intros Hin. apply (pkeys_pset pk pe r k0) in Hin.
      destruct Hin as [->|Hin]; [|contradiction].
      rewrite (proj2 (key_eqb_eq pk pk) eq_refl) in E. discriminate.
Qed.

(** A path key has its smaller id first. *)
Lemma sorted_pair_canonical a b :
  String.ltb (snd (sorted_pair a b)) (fst (sorted_pair a b)) = false.
Proof.
  unfold sorted_pair. destruct (String.ltb b a) eqn:E; simpl; [|exact E].
  unfold String.ltb in *. rewrite String.compare_antisym.
  destruct (String.compare b a); simpl; congruence.
Qed.

Lemma sorted_pair_cases a b : sorted_pair a b = (a, b) \/ sorted_pair a b = (b, a).
Proof. unfold sorted_pair. destruct (String.ltb b a); auto. Qed.

Lemma create_path_step_keys nodes node_id paths t key :
  In key (pkeys (create_path_step nodes node_id paths t)) <->
  In key (pkeys paths)
  \/ (nmem t nodes = true /\ key = sorted_pair node_id t).
Proof.
  unfold create_path_step. destruct (nmem t nodes).
  - destruct (pmem (sorted_pair node_id t) paths) eqn:E.
    + apply pmem_in_keys in E. split; [auto|].
      intros [H|[_ ->]]; auto.
    + rewrite pkeys_pset_in. intuition auto.
  - split; [auto|]. intros [H|[H _]]; [exact H | discriminate].
Qed.

Lemma create_path_step_fine nodes node_id paths t :
  keys_fine paths -> keys_fine (create_path_step nodes node_id paths t).
Proof.
  intros [Hnd Hcan]. unfold create_path_step.
  destruct (nmem t nodes); [|now split].
  destruct (pmem (sorted_pair node_id t) paths); [now split|].
  split; [now apply nodup_pset|].
  intros key Hin. apply pkeys_pset_in in Hin.
  destruct Hin as [->|Hin]; [apply sorted_pair_canonical | now apply Hcan].
Qed.

Lemma unlocks_loop_keys nodes node_id : forall ts paths key,
  In key (pkeys (fold_left (create_path_step nodes node_id) ts paths)) <->
  In key (pkeys paths)
  \/ exists t, In t ts /\ nmem t nodes = true /\ key = sorted_pair node_id t.
Proof.
  induction ts as [|t ts IH]; intros paths key; simpl.
  - split; [auto|]. intros [H|(t & [] & _)]. exact H.
  - rewrite IH, create_path_step_keys. split.
    + intros [[H|[H1 H2]]|(t' & Hin & H1 & H2)]; eauto 7.
    + intros [H|(t' & [<-|Hin] & H1 & H2)]; eauto 7.
Qed.

Lemma unlocks_loop_fine nodes node_id : forall ts paths,
  keys_fine paths -> keys_fine (fold_left (create_path_step nodes node_id) ts paths).
Proof.
  induction ts as [|t ts IH]; intros paths H; [exact H|].
  simpl. apply IH. now apply create_path_step_fine.
Qed.

Lemma create_paths_from_keys nodes : forall items paths key,
  In key (pkeys (create_paths_from nodes items paths)) <->
  In key (pkeys paths)
  \/ exists node_id node t,
       In (node_id, node) items /\ In t (unlocks node)
       /\ nmem t nodes = true /\ key = sorted_pair node_id t.
Proof.
  induction items as [|[node_id node] items IH]; intros paths key.
  - simpl. split; [auto|]. intros [H|(? & ? & ? & [] & _)]. exact H.
  - unfold create_paths_from in *. simpl. rewrite IH, unlocks_loop_keys. split.
    + intros [[H|(t & Hin & H1 & H2)]|(i & n & t & Hin & H1 & H2 & H3)].
      * now left.
      * right. exists node_id, node, t. auto.
      * right. exists i, n, t. auto.
    + intros [H|(i & n & t & [Heq|Hin] & H1 & H2 & H3)].
      * auto.
      * inversion Heq; subst. left. right. eauto.
      * right. exists i, n, t. auto.
Qed.

Lemma create_paths_from_fine nodes : forall items paths,
  keys_fine paths -> keys_fine (create_paths_from nodes items paths).
Proof.
  induction items as [|[node_id node] items IH]; intros paths H; [exact H|].
  unfold create_paths_from in *. simpl. apply IH. now apply unlocks_loop_fine.
Qed.

Lemma nget_in k n d : nget k d = Some n -> In (k, n) d.
Proof.
  induction d as [|[k0 v] r IH]; [discriminate|].
  rewrite nget_cons. destruct (String.eqb_spec k k0) as [->|Hne].
  - intros [= ->]. now left.
  - intros H. right. auto.
Qed.

Lemma in_nget_nodup k n d : NoDup (nkeys d) -> In (k, n) d -> nget k d = Some n.
Proof.
  induction d as [|[k0 v] r IH]; simpl; [tauto|].
  intros Hnd [Heq|Hin]; inversion Hnd as [|? ? Hnotin Hnd']; subst; rewrite nget_cons.
  - inversion Heq; subst. now rewrite String.eqb_refl.
  - destruct (String.eqb_spec k k0) as [->|Hne]; [|auto].
    exfalso. apply Hnotin. change (In (fst (k0, n)) (map fst r)).
    now apply in_map.
Qed.

Lemma created_items cfg k n :
  NoDup (map ld_id cfg) ->
  In (k, n) (created_nodes cfg []) <->
  exists data, In data cfg /\ ld_id data = k /\ n = new_LevelNode data.
Proof.
  intros Hnd. split.
  - intros Hin. apply in_nget_nodup in Hin.
    + apply created_nodes_from_record in Hin.
      destruct Hin as [H|H]; [discriminate | exact H].
    + apply created_nodes_nodup. constructor.
  - intros (data & Hin & <- & ->). apply nget_in. now apply created_nodes_get.
Qed.

Lemma create_paths_keys cfg key :
  NoDup (map ld_id cfg) ->
  In key (pkeys (create_paths (created_nodes cfg []))) <->
  exists a b, edge cfg a b /\ key = sorted_pair a b.
Proof.
  intros Hnd. unfold create_paths. rewrite create_paths_from_keys. split.
  - intros [[]|(a & node & t & Hin & Ht & Hmem & ->)].
    apply (created_items cfg a node Hnd) in Hin.
    destruct Hin as (data & Hin & Hid & ->). simpl in Ht.
    exists a, t. split; [|reflexivity].
    exists data. repeat split; auto.
    apply nmem_in_keys, created_nodes_keys in Hmem.
    destruct Hmem as [[]|H]. exact H.
  - intros (a & b & (data & Hin & Hid & Hb & Hb') & ->). right.
    exists a, (new_LevelNode data), b. repeat split; auto.
    + apply created_items; eauto.
    + now apply created_nodes_ids.
Qed.

Lemma pkeys_init_V1 cfg :
  ids_nonempty cfg ->
  pkeys (paths_entities (V1.init cfg)) = pkeys (create_paths (created_nodes cfg [])).
Proof.
  intros Hids. rewrite init_V1_start by exact Hids.
  apply pkeys_update_path_visuals_V1.
Qed.

(** X4.  With distinct non-empty ids, set-up creates exactly one path for
    each pair of configured ids one of which lists the other in its
    unlocks: the keys are the [sorted_pair]s of the configured edges, no
    key occurs twice, every key has its smaller id first, and an unlock
    entry that names no configured id creates nothing.  The same keys in
    both files. *)
Theorem X4_paths_after_setup :
  forall cfg,
    ids_nonempty cfg ->
    NoDup (map ld_id cfg) ->
    keys_fine (paths_entities (V1.init cfg))
    /\ (forall key,
          In key (pkeys (paths_entities (V1.init cfg))) <->
          exists a b, edge cfg a b /\ key = sorted_pair a b)
    /\ exists w0, V2.init cfg = Some w0
                  /\ pkeys (paths_entities w0)
                     = pkeys (paths_entities (V1.init cfg)).
Proof.
  intros cfg Hids Hnd. split; [|split].
  - unfold keys_fine. rewrite pkeys_init_V1 by exact Hids.
    apply (create_paths_from_fine (created_nodes cfg []) (created_nodes cfg []) []).
    split; [constructor | intros key []].
  - intros key. rewrite pkeys_init_V1 by exact Hids.
    now apply create_paths_keys.
  - destruct (init_V2_nodes cfg Hids) as (w0 & Hw0 & _ & _ & Hpk). eauto.
Qed.

Lemma X4_paths_after_setup_witness :
  pkeys (paths_entities (V1.init levels_data))
  = [("1-1", "1-2"); ("1-2", "1-A"); ("1-2", "1-3"); ("1-3", "1-Castle");
     ("1-Castle", "2-1")]
  /\ keys_fine (paths_entities (V1.init levels_data)).
Proof.
  split; [vm_compute; reflexivity|].
  destruct (X4_paths_after_setup levels_data
              levels_data_ids_nonempty levels_data_ids_distinct) as (H & _).
  exact H.
Defined.

Lemma adjacent_in x y : forall paths,
  In y (V2.get_adjacent_nodes (Some x) paths) <->
  exists key, In key (pkeys paths) /\ (key = (x, y) \/ key = (y, x)).
Proof.
  induction paths as [|[[id1 id2] pe] rest IH]; simpl.
  - split; [tauto | intros (key & [] & _)].
  - destruct (String.eqb_spec id1 x) as [->|H1].
    + simpl. rewrite IH. split.
      * intros [->|(key & Hin & Hk)]; [exists (x, y); auto | exists key; auto].
      * intros (key & [<-|Hin] & Hk); [|right; eauto].
        left. destruct Hk as [Hk|Hk]; inversion Hk; subst; reflexivity.
    + destruct (String.eqb_spec id2 x) as [->|H2].
      * simpl. rewrite IH. split.
        -- intros [->|(key & Hin & Hk)]; [exists (y, x); auto | exists key; auto].
        -- intros (key & [<-|Hin] & Hk); [|right; eauto].
           left. destruct Hk as [Hk|Hk]; inversion Hk; subst; [contradiction|reflexivity].
      * rewrite IH. split.
        -- intros (key & Hin & Hk). exists key. auto.
        -- intros (key & [<-|Hin] & Hk); [|eauto].
           destruct Hk as [Hk|Hk]; inversion Hk; subst; contradiction.
Qed.

Lemma adjacent_none : forall paths, V2.get_adjacent_nodes None paths = [].
Proof.
  induction paths as [|[[id1 id2] pe] rest IH]; [reflexivity|]. exact IH.
Qed.

Lemma pkeys_handle_node_click_V2 clicked_id w w' :
  V2.handle_node_click clicked_id w = Some w' ->
  pkeys (paths_entities w') = pkeys (paths_entities w).
Proof.
  unfold V2.handle_node_click.
  destruct (nget clicked_id (all_level_nodes w)) as [n|]; [|now intros [= <-]].
  destruct (node_state n =? locked); [now intros [= <-]|].
  destruct (id_is _ _); [now intros [= <-]|].
  match goal with |- context [if ?c then _ else _] => destruct c end;
    [|now intros [= <-]].
  destruct (V2.set_current_player_node (level_id n) w) as [w1|] eqn:Hmove;
    [|discriminate].
  intros [= <-]. simpl.
  now apply set_current_player_node_V2_V1 in Hmove.
Qed.

Lemma pkeys_reachable_V2 cfg w :
  ids_nonempty cfg -> V2.reachable cfg w ->
  pkeys (paths_entities w) = pkeys (create_paths (created_nodes cfg [])).
Proof.
  intros Hids. induction 1 as [w Hinit | w clicked_id w' Hr IH Hclick].
  - destruct (init_V2_nodes cfg Hids) as (w0 & Hw0 & _ & _ & Hpk).
    assert (w0 = w) by congruence. subst.
    now rewrite Hpk, pkeys_init_V1.
  - now rewrite (pkeys_handle_node_click_V2 _ _ _ Hclick).
Qed.

(** X5.  All through a game of [3dworld5.13.25.py] (distinct non-empty
    ids), [get_adjacent_nodes(x)] holds [y] exactly when one of [x], [y]
    is configured to unlock the other: adjacency is the configured graph
    taken in both directions, it is symmetric and play never changes it.
    With no current node nothing is adjacent. *)
Theorem X5_adjacency_is_the_configured_graph :
  forall cfg w x y,
    ids_nonempty cfg ->
    NoDup (map ld_id cfg) ->
    V2.reachable cfg w ->
    (In y (V2.get_adjacent_nodes (Some x) (paths_entities w)) <->
     edge cfg x y \/ edge cfg y x)
    /\ (In y (V2.get_adjacent_nodes (Some x) (paths_entities w)) <->
        In x (V2.get_adjacent_nodes (Some y) (paths_entities w)))
    /\ V2.get_adjacent_nodes None (paths_entities w) = [].
Proof.
  intros cfg w x y Hids Hnd Hr.
  assert (Hadj : forall a b,
             In b (V2.get_adjacent_nodes (Some a) (paths_entities w)) <->
             edge cfg a b \/ edge cfg b a).
  { intros a b. rewrite adjacent_in, (pkeys_reachable_V2 cfg w Hids Hr). split.
    - intros (key & Hin & Hk). apply (create_paths_keys cfg key Hnd) in Hin.
      destruct Hin as (c & d & He & ->).
      destruct (sorted_pair_cases c d) as [E|E]; rewrite E in Hk;
        destruct Hk as [Hk|Hk]; inversion Hk; subst; auto.
    - intros [He|He].
      + exists (sorted_pair a b). split.
        * apply create_paths_keys; eauto.
        * destruct (sorted_pair_cases a b) as [E|E]; rewrite E; auto.
      + exists (sorted_pair b a). split.
        * apply create_paths_keys; eauto.
        * destruct (sorted_pair_cases b a) as [E|E]; rewrite E; auto. }
  split; [apply Hadj|]. split; [|apply adjacent_none].
  rewrite !Hadj. tauto.
Qed.

Lemma X5_adjacency_is_the_configured_graph_witness :
  In "1-3" (V2.get_adjacent_nodes (Some "1-2")
              (paths_entities (world_of (V2.init levels_data))))
  <-> edge levels_data "1-2" "1-3" \/ edge levels_data "1-3" "1-2".
Proof.
  assert (Hr : V2.reachable levels_data (world_of (V2.init levels_data))).
  { apply V2.reach_init. vm_compute. reflexivity. }
  destruct (X5_adjacency_is_the_configured_graph levels_data
              (world_of (V2.init levels_data)) "1-2" "1-3"
              levels_data_ids_nonempty levels_data_ids_distinct Hr) as (H & _).
  exact H.
Defined.

(** ** The click policies *)

Lemma state_in_unlocked_completed_iff s :
  state_in_unlocked_completed s = true <-> s = unlocked \/ s = completed.
Proof.
  unfold state_in_unlocked_completed.
  rewrite orb_true_iff, !String.eqb_eq. tauto.
Qed.

(** In [1.py] the flag is only ever set for an unlocked or completed
    node. *)
Lemma can_move_open w node :
  V1.can_move w node = true -> state_in_unlocked_completed (node_state node) = true.
Proof.
  unfold V1.can_move, state_in_unlocked_completed.
  destruct (current_player_node_id w) as [c|]; [|discriminate].
  destruct (truthy (Some c)); [|discriminate].
  destruct (nget c (all_level_nodes w)) as [p|]; [|discriminate].
  destruct (node_state node =? unlocked); [reflexivity|].
  rewrite andb_false_r. simpl.
  now destruct (node_state node =? completed).
Qed.

Lemma rejects_can_move w n :
  V1.rejects (V1.can_move w n) n
  = negb (state_in_unlocked_completed (node_state n)).
Proof.
  unfold V1.rejects. destruct (V1.can_move w n) eqn:Hcm.
  - apply can_move_open in Hcm. rewrite Hcm. reflexivity.
  - unfold state_in_unlocked_completed. simpl.
    now destruct (node_state n =? unlocked), (node_state n =? completed).
Qed.

(** X6.  In [1.py] the adjacency test of [handle_node_click] is dead
    code in every world: whatever the pointer, the paths and the states
    are, the handler ends exactly as it would with [can_move] set to
    [False]; so a non-locked, non-current node is moved to when it is
    unlocked or completed and shaken otherwise, wherever it lies. *)
Theorem X6_can_move_is_dead_code :
  forall w clicked_node,
    V1.finish_click (V1.can_move w clicked_node) clicked_node w
    = V1.finish_click false clicked_node w
    /\ V1.rejects (V1.can_move w clicked_node) clicked_node
       = negb (state_in_unlocked_completed (node_state clicked_node)).
Proof.
  intros w n. split; [|apply rejects_can_move].
  unfold V1.finish_click. rewrite rejects_can_move.
  unfold V1.rejects, state_in_unlocked_completed. simpl.
  now destruct (node_state n =? unlocked), (node_state n =? completed).
Qed.

(** X7.  A click of [3dworld5.13.25.py] moves the pointer only along a
    path: when the pointer after the click differs from the pointer
    before, the clicked node is unlocked or completed, it is listed by
    [get_adjacent_nodes] for the old pointer, and it is the new
    pointer. *)
Theorem X7_strict_moves_follow_paths :
  forall w clicked_id w',
    V2.handle_node_click clicked_id w = Some w' ->
    current_player_node_id w' <> current_player_node_id w ->
    exists clicked_node,
      nget clicked_id (all_level_nodes w) = Some clicked_node
      /\ current_player_node_id w' = Some (level_id clicked_node)
      /\ In (level_id clicked_node)
            (V2.get_adjacent_nodes (current_player_node_id w) (paths_entities w))
      /\ (node_state clicked_node = unlocked \/ node_state clicked_node = completed).
Proof.
  intros w clicked_id w'. unfold V2.handle_node_click.
  destruct (nget clicked_id (all_level_nodes w)) as [n|] eqn:Hn;
    [|intros [= <-] H; contradiction].
  destruct (node_state n =? locked); [intros [= <-] H; contradiction|].
  destruct (id_is _ _); [intros [= <-] H; contradiction|].
  destruct (existsb _ _) eqn:Hadj; simpl; [|intros [= <-] H; contradiction].
  destruct (state_in_unlocked_completed (node_state n)) eqn:Hs;
    [|intros [= <-] H; contradiction].
  destruct (V2.set_current_player_node (level_id n) w) as [w1|] eqn:Hmove;
    [|discriminate].
  intros [= <-] _. exists n. split; [reflexivity|]. simpl.
  apply set_current_player_node_V2_V1 in Hmove. destruct Hmove as (_ & Hc & _).
  rewrite Hc, pointer_set_current_player_node_V1.
  split; [reflexivity|]. split.
  - now apply existsb_eqb_in.
  - now apply state_in_unlocked_completed_iff.
Qed.

Lemma X7_strict_moves_follow_paths_witness :
  exists clicked_node,
    nget "B" (all_level_nodes (V1.init chain_open_data)) = Some clicked_node
    /\ current_player_node_id
         (world_of (V2.handle_node_click "B" (V1.init chain_open_data)))
       = Some (level_id clicked_node)
    /\ In (level_id clicked_node)
          (V2.get_adjacent_nodes
             (current_player_node_id (V1.init chain_open_data))
             (paths_entities (V1.init chain_open_data)))
    /\ (node_state clicked_node = unlocked \/ node_state clicked_node = completed).
Proof.
  assert (H1 : V2.handle_node_click "B" (V1.init chain_open_data)
               = Some (world_of (V2.handle_node_click "B" (V1.init chain_open_data))))
    by (vm_compute; reflexivity).
  assert (H2 : current_player_node_id
                 (world_of (V2.handle_node_click "B" (V1.init chain_open_data)))
               <> current_player_node_id (V1.init chain_open_data))
    by (vm_compute; discriminate).
  exact (X7_strict_moves_follow_paths _ _ _ H1 H2).
Defined.

(** X8.  The stricter file refines the looser one: a click that
    [3dworld5.13.25.py] handles without raising either leaves the same
    nodes, pointer and requests as the same click in [1.py], or is turned
    down with a shake of the clicked node, the world being otherwise
    untouched.  Every move of [3dworld5.13.25.py] is a move of [1.py]. *)
Theorem X8_strict_clicks_refine_free_clicks :
  forall w clicked_id w',
    V2.handle_node_click clicked_id w = Some w' ->
    (all_level_nodes w' = all_level_nodes (V1.handle_node_click clicked_id w)
     /\ current_player_node_id w'
        = current_player_node_id (V1.handle_node_click clicked_id w)
     /\ requests w' = requests (V1.handle_node_click clicked_id w))
    \/ exists clicked_node,
         nget clicked_id (all_level_nodes w) = Some clicked_node
         /\ w' = add_request (Shake (level_id clicked_node)) w.
Proof.
  intros w clicked_id w'. unfold V2.handle_node_click, V1.handle_node_click.
  destruct (nget clicked_id (all_level_nodes w)) as [n|] eqn:Hn;
    [|intros [= <-]; left; auto].
  destruct (node_state n =? locked); [intros [= <-]; left; auto|].
  destruct (id_is _ _); [intros [= <-]; left; auto|].
  destruct (existsb _ _); simpl; [|intros [= <-]; right; eauto].
  destruct (state_in_unlocked_completed (node_state n)) eqn:Hs;
    [|intros [= <-]; right; eauto].
  destruct (V2.set_current_player_node (level_id n) w) as [w1|] eqn:Hmove;
    [|discriminate].
  intros [= <-]. left.
  unfold V1.finish_click. rewrite rejects_can_move, Hs. simpl.
  apply set_current_player_node_V2_V1 in Hmove.
  destruct Hmove as (H1 & H2 & H3 & _). now rewrite H1, H2, H3.
Qed.

Lemma X8_strict_clicks_refine_free_clicks_witness :
  all_level_nodes (world_of (V2.handle_node_click "B" (V1.init chain_open_data)))
  = all_level_nodes (V1.handle_node_click "B" (V1.init chain_open_data))
  \/ exists clicked_node,
       nget "B" (all_level_nodes (V1.init chain_open_data)) = Some clicked_node
       /\ world_of (V2.handle_node_click "B" (V1.init chain_open_data))
          = add_request (Shake (level_id clicked_node)) (V1.init chain_open_data).
Proof.
  assert (H1 : V2.handle_node_click "B" (V1.init chain_open_data)
               = Some (world_of (V2.handle_node_click "B" (V1.init chain_open_data))))
    by (vm_compute; reflexivity).
  destruct (X8_strict_clicks_refine_free_clicks _ _ _ H1) as [(H & _)|H].
  - left. exact H.
  - right. exact H.
Defined.

(** ** The visual sync *)

Lemma update_visual_state_idem b n :
  update_visual_state b (update_visual_state b n) = update_visual_state b n.
Proof.
  unfold update_visual_state. simpl.
  now destruct (node_state n =? locked), (node_state n =? unlocked),
    (node_state n =? completed).
Qed.

Lemma update_node_visuals_idem cur d :
  update_node_visuals cur (update_node_visuals cur d) = update_node_visuals cur d.
Proof.
  unfold update_node_visuals. rewrite map_map. apply map_ext.
  intros [k n]. simpl. now rewrite update_visual_state_idem.
Qed.

Lemma update_path_visuals_V1_idem nodes paths :
  V1.update_path_visuals nodes (V1.update_path_visuals nodes paths)
  = V1.update_path_visuals nodes paths.
Proof.
  unfold V1.update_path_visuals. rewrite map_map. apply map_ext.
  intros [pk pe]. simpl.
  destruct (nget (fst pk) nodes) eqn:E1; simpl.
  - destruct (nget (snd pk) nodes) eqn:E2; simpl; now rewrite E1, E2.
  - now rewrite E1.
Qed.

Lemma update_path_visuals_V2_idem nodes : forall paths ps,
  V2.update_path_visuals nodes paths = Some ps ->
  V2.update_path_visuals nodes ps = Some ps.
Proof.
  induction paths as [|[pk pe] rest IH]; simpl; intros ps H.
  - now inversion H.
  - destruct (nget (fst pk) nodes) eqn:E1; [|discriminate].
    destruct (nget (snd pk) nodes) eqn:E2; [|discriminate].
    destruct (V2.update_path_visuals nodes rest) as [rest'|]; [|discriminate].
    inversion H; subst. simpl. rewrite E1, E2, (IH rest' eq_refl). reflexivity.
Qed.

Lemma update_all_visuals_V1_idem w :
  V1.update_all_visuals (V1.update_all_visuals w) = V1.update_all_visuals w.
Proof.
  unfold V1.update_all_visuals. simpl.
  now rewrite update_node_visuals_idem, update_path_visuals_V1_idem.
Qed.

Lemma update_all_visuals_V2_idem w w' :
  V2.update_all_visuals w = Some w' -> V2.update_all_visuals w' = Some w'.
Proof.
  unfold V2.update_all_visuals.
  destruct (V2.update_path_visuals _ (paths_entities w)) as [ps|] eqn:Hps;
    [|discriminate].
  intros [= <-]. simpl. rewrite update_node_visuals_idem.
  now rewrite (update_path_visuals_V2_idem _ _ _ Hps).
Qed.

Lemma update_all_visuals_V1_add_request r w :
  V1.update_all_visuals w = w ->
  V1.update_all_visuals (add_request r w) = add_request r w.
Proof.
  intros H. rewrite <- H at 2. reflexivity.
Qed.

Lemma update_all_visuals_V2_add_request r w :
  V2.update_all_visuals w = Some w ->
  V2.update_all_visuals (add_request r w) = Some (add_request r w).
Proof.
  destruct w as [nodes paths cur reqs]. unfold V2.update_all_visuals. simpl.
  destruct (V2.update_path_visuals _ paths) as [ps|]; [|discriminate].
  intros [= H1 H2]. unfold add_request. simpl. now rewrite H1, H2.
Qed.

Lemma set_current_player_node_V1_synced X w :
  V1.update_all_visuals (V1.set_current_player_node X w)
  = V1.set_current_player_node X w.
Proof.
  unfold V1.set_current_player_node.
  destruct (nget X (V1.vacate w)); apply update_all_visuals_V1_idem.
Qed.

Lemma set_current_player_node_V2_synced X w w' :
  V2.set_current_player_node X w = Some w' -> V2.update_all_visuals w' = Some w'.
Proof.
  unfold V2.set_current_player_node.
  destruct (V2.vacate w); [|discriminate].
  destruct (nget X _); [|discriminate].
  apply update_all_visuals_V2_idem.
Qed.

Lemma reachable_synced_V1 cfg w :
  V1.reachable cfg w -> V1.update_all_visuals w = w.
Proof.
  induction 1 as [|w clicked_id Hr IH].
  - apply update_all_visuals_V1_idem.
  - unfold V1.handle_node_click, V1.finish_click.
    destruct (nget clicked_id (all_level_nodes w)) as [n|]; [|exact IH].
    destruct (node_state n =? locked);
      [now apply update_all_visuals_V1_add_request|].
    destruct (id_is _ _); [now apply update_all_visuals_V1_add_request|].
    destruct (V1.rejects _ n); apply update_all_visuals_V1_add_request;
      [exact IH | apply set_current_player_node_V1_synced].
Qed.

Lemma reachable_synced_V2 cfg w :
  V2.reachable cfg w -> V2.update_all_visuals w = Some w.
Proof.
  induction 1 as [w Hinit | w clicked_id w' Hr IH Hclick].
  - unfold V2.init, V2.setup_level_nodes_and_paths in Hinit.
    destruct (V2.fallback _ _); [|discriminate].
    now apply update_all_visuals_V2_idem in Hinit.
  - revert Hclick. unfold V2.handle_node_click.
    destruct (nget clicked_id (all_level_nodes w)) as [n|];
      [|now intros [= <-]].
    destruct (node_state n =? locked);
      [intros [= <-]; now apply update_all_visuals_V2_add_request|].
    destruct (id_is _ _);
      [intros [= <-]; now apply update_all_visuals_V2_add_request|].
    match goal with |- context [if ?c then _ else _] => destruct c end;
      [|intros [= <-]; now apply update_all_visuals_V2_add_request].
    destruct (V2.set_current_player_node (level_id n) w) as [w1|] eqn:Hmove;
      [|discriminate].
    intros [= <-]. apply update_all_visuals_V2_add_request.
    eapply set_current_player_node_V2_synced; eauto.
Qed.

(** X9.  The sync is a projection: running [update_all_visuals] twice is
    running it once, and every world of a game is already synced, so that
    re-running it would change no flag, no collider and no path
    directive.  In [3dworld5.13.25.py] it moreover raises nothing
    there. *)
Theorem X9_worlds_are_synced :
  forall cfg w1 w2 w,
    V1.reachable cfg w1 ->
    V2.reachable cfg w2 ->
    V1.update_all_visuals (V1.update_all_visuals w) = V1.update_all_visuals w
    /\ V1.update_all_visuals w1 = w1
    /\ V2.update_all_visuals w2 = Some w2.
Proof.
  intros cfg w1 w2 w H1 H2. split; [apply update_all_visuals_V1_idem|].
  split; [eapply reachable_synced_V1 | eapply reachable_synced_V2]; eauto.
Qed.

Lemma X9_worlds_are_synced_witness :
  V1.update_all_visuals (V1.handle_node_click "B" (V1.init chain_open_data))
  = V1.handle_node_click "B" (V1.init chain_open_data).
Proof.
  assert (H1 : V1.reachable chain_open_data
                 (V1.handle_node_click "B" (V1.init chain_open_data)))
    by (apply V1.reach_click, V1.reach_init).
  assert (H2 : V2.reachable chain_open_data (world_of (V2.init chain_open_data)))
    by (apply V2.reach_init; vm_compute; reflexivity).
  destruct (X9_worlds_are_synced chain_open_data _ _ initial_world H1 H2)
    as (_ & H & _).
  exact H.
Defined.





(** ** The node the pointer is on *)

Lemma move_state_landed cur X ts s : move_state cur X ts X s <> locked.
Proof.
  unfold move_state. rewrite cascade_state_not_locked.
  - unfold land_state. rewrite String.eqb_refl. simpl.
    destruct (String.eqb_spec (vacate_state cur X s) locked) as [E|E];
      [discriminate | exact E].
  - unfold land_state. rewrite String.eqb_refl. simpl.
    destruct (String.eqb_spec (vacate_state cur X s) locked) as [E|E];
      [discriminate | exact E].
Qed.

Lemma current_open_set_current_player_node_V1 X w :
  nmem X (all_level_nodes w) = true ->
  current_open (V1.set_current_player_node X w).
Proof.
  intros HX c n. rewrite pointer_set_current_player_node_V1. intros [= <-].
  apply nmem_get in HX. destruct HX as [x Hx].
  rewrite (nget_set_current_player_node_V1 _ _ _ _ Hx), Hx. simpl.
  intros [= <-]. simpl. apply move_state_landed.
Qed.

Lemma current_open_start cfg :
  NoDup (map ld_id cfg) -> current_open (V1.update_all_visuals (start_world cfg)).
Proof.
  intros Hnd c n. simpl. intros Hc.
  assert (Hdata : exists data, In data cfg /\ ld_id data = c
                               /\ start_state cfg data = unlocked).
  { unfold start_pointer in Hc. unfold start_state.
    destruct (first_unlocked cfg) as [c'|] eqn:Hfu.
    - inversion Hc; subst.
      destruct (first_unlocked_some _ _ Hfu) as (data & Hin & Hid & Hs). eauto.
    - destruct cfg as [|first rest]; [discriminate|].
      simpl in Hc. inversion Hc; subst.
      exists first. simpl. rewrite String.eqb_refl. auto. }
  destruct Hdata as (data & Hin & <- & Hs).
  rewrite nget_update_node_visuals, (start_nodes_get cfg data Hnd Hin). simpl.
  intros [= <-]. simpl. rewrite Hs. discriminate.
Qed.

Lemma current_open_reachable_V1 cfg w :
  ids_nonempty cfg -> NoDup (map ld_id cfg) ->
  V1.reachable cfg w -> current_open w.
Proof.
  intros Hids Hnd. induction 1 as [|w clicked_id Hr IH].
  - rewrite init_V1_start by exact Hids. now apply current_open_start.
  - pose proof (invariant_reachable_V1 _ _ Hr) as Hinv.
    unfold V1.handle_node_click, V1.finish_click.
    destruct (nget clicked_id (all_level_nodes w)) as [n|] eqn:Hn; [|exact IH].
    destruct (node_state n =? locked); [exact IH|].
    destruct (id_is _ _); [exact IH|].
    destruct (V1.rejects _ n); [exact IH|].
    apply (current_open_set_current_player_node_V1 (level_id n) w).
    rewrite (inv_keyed_by_id w Hinv _ _ Hn). apply nmem_get. eauto.
Qed.

Lemma current_open_reachable_V2 cfg w :
  ids_nonempty cfg -> NoDup (map ld_id cfg) ->
  V2.reachable cfg w -> current_open w.
Proof.
  intros Hids Hnd. induction 1 as [w Hinit | w clicked_id w' Hr IH Hclick].
  - destruct (init_V2_nodes cfg Hids) as (w0 & Hw0 & Hn & Hc & _).
    assert (w0 = w) by congruence. subst.
    unfold current_open. rewrite Hn, Hc.
    rewrite init_V1_start by exact Hids. now apply current_open_start.
  - pose proof (invariant_reachable_V2 _ _ Hr) as Hinv.
    revert Hclick. unfold V2.handle_node_click.
    destruct (nget clicked_id (all_level_nodes w)) as [n|] eqn:Hn;
      [|now intros [= <-]].
    destruct (node_state n =? locked); [now intros [= <-]|].
    destruct (id_is _ _); [now intros [= <-]|].
    match goal with |- context [if ?c then _ else _] => destruct c end;
      [|now intros [= <-]].
    destruct (V2.set_current_player_node (level_id n) w) as [w1|] eqn:Hmove;
      [|discriminate].
    intros [= <-].
    apply set_current_player_node_V2_V1 in Hmove. destruct Hmove as (H1 & H2 & _).
    unfold current_open. simpl. rewrite H1, H2.
    apply (current_open_set_current_player_node_V1 (level_id n) w).
    rewrite (inv_keyed_by_id w Hinv _ _ Hn). apply nmem_get. eauto.
Qed.

(** X11.  With distinct non-empty ids, the current node is never locked:
    in every world of a game, in both files, the node the pointer names
    is in a state other than ['locked'] (set-up starts on an unlocked
    node, and a move unlocks the node it lands on if need be). *)
Theorem X11_current_node_is_never_locked :
  forall cfg w c n,
    ids_nonempty cfg ->
    NoDup (map ld_id cfg) ->
    V1.reachable cfg w \/ V2.reachable cfg w ->
    current_player_node_id w = Some c ->
    nget c (all_level_nodes w) = Some n ->
    node_state n <> locked.
Proof.
  intros cfg w c n Hids Hnd [Hr|Hr] Hc Hn.
  - exact (current_open_reachable_V1 cfg w Hids Hnd Hr c n Hc Hn).
  - exact (current_open_reachable_V2 cfg w Hids Hnd Hr c n Hc Hn).
Qed.

Lemma X11_current_node_is_never_locked_witness :
  node_state (mkLevelNode "1-1" "World 1-1" ["1-2"] "unlocked" true true) <> locked.
Proof.
  assert (Hr : V1.reachable levels_data (V1.init levels_data)
               \/ V2.reachable levels_data (V1.init levels_data))
    by (left; apply V1.reach_init).
  assert (Hc : current_player_node_id (V1.init levels_data) = Some "1-1")
    by (vm_compute; reflexivity).
  assert (Hn : nget "1-1" (all_level_nodes (V1.init levels_data))
               = Some (mkLevelNode "1-1" "World 1-1" ["1-2"] "unlocked" true true))
    by (vm_compute; reflexivity).
  exact (X11_current_node_is_never_locked levels_data _ _ _
           levels_data_ids_nonempty levels_data_ids_distinct Hr Hc Hn).
Defined.

(** ** Where the two files coincide *)

(** On nodes whose states are state names the two files compute the same
    path directives; the [dark_gray] branch of [1.py] is not taken. *)
Lemma path_visual_V1_V2 node1 node2 :
  known_state (node_state node1) -> known_state (node_state node2) ->
  V1.path_visual node1 node2 = V2.path_visual node1 node2.
Proof.
  unfold V1.path_visual, V2.path_visual, state_in_unlocked_completed.
  intros [E1|[E1|E1]] [E2|[E2|E2]]; rewrite E1, E2; simpl;
    destruct (is_current_game_node node1), (is_current_game_node node2);
    reflexivity.
Qed.









Lemma levels_data_states_valid : states_valid levels_data.
Proof.
  intros data Hin. simpl in Hin. unfold known_state.
  destruct Hin as [<-|Hin]; [right; left; reflexivity|].
  repeat (destruct Hin as [<-|Hin]; [left; reflexivity|]). contradiction.
Qed.


(** ** The pop requests of a move *)

Lemma nstate_nadjust_set s k k' d :
  nstate k' (nadjust (set_state s) k d) =
  if k' =? k then option_map (fun _ => s) (nstate k' d) else nstate k' d.
Proof.
  unfold nstate. rewrite nget_nadjust.
  destruct (k' =? k); [|reflexivity]. now destruct (nget k' d).
Qed.

Lemma snd_unlock_cascade ts : forall d r,
  snd (unlock_cascade ts d r) = r ++ map Pop (popped ts d).
Proof.
  induction ts as [|t ts IH]; intros d r.
  - simpl. now rewrite app_nil_r.
  - rewrite unlock_cascade_cons, IH, unlock_step_eq. simpl popped.
    destruct (nget t d) as [n|]; [|reflexivity].
    destruct (node_state n =? locked); [|reflexivity].
    simpl. now rewrite <- app_assoc.
Qed.

Lemma popped_in ts : forall d k,
  In k (popped ts d) <-> In k ts /\ nstate k d = Some locked.
Proof.
  induction ts as [|t ts IH]; intros d k; simpl.
  - tauto.
  - destruct (nget t d) as [n|] eqn:Hn.
    + destruct (String.eqb_spec (node_state n) locked) as [Hl|Hl].
      * simpl. rewrite IH, nstate_nadjust_set.
        destruct (String.eqb_spec k t) as [->|Hne].
        -- unfold nstate. rewrite Hn. simpl. rewrite Hl.
           split; [auto|]. intros _. now left.
        -- split; [intros [H|H]; [congruence | tauto]|].
           intros [[H|H] H']; [congruence | auto].
      * rewrite IH. split; [tauto|].
        intros [[<-|H] H']; [|auto].
        unfold nstate in H'. rewrite Hn in H'. simpl in H'. congruence.
    + rewrite IH. split; [tauto|].
      intros [[<-|H] H']; [|auto].
      unfold nstate in H'. rewrite Hn in H'. discriminate.
Qed.

Lemma popped_nodup ts : forall d, NoDup (popped ts d).
Proof.
  induction ts as [|t ts IH]; intros d; simpl; [constructor|].
  destruct (nget t d) as [n|] eqn:Hn; [|apply IH].
  destruct (node_state n =? locked); [|apply IH].
  constructor; [|apply IH].
  rewrite popped_in, nstate_nadjust_set, String.eqb_refl.
  unfold nstate. rewrite Hn. simpl. intros [_ H]. discriminate.
Qed.

Lemma locked_before_cascade cur X k s :
  land_state X k (vacate_state cur k s) = locked <-> s = locked /\ k <> X.
Proof.
  unfold land_state, vacate_state. split.
  - destruct (truthy cur && id_is k cur && (s =? unlocked)).
    + destruct ((k =? X) && (completed =? locked)); discriminate.
    + destruct (String.eqb_spec k X) as [->|Hne]; simpl.
      * destruct (String.eqb_spec s locked); [discriminate | contradiction].
      * auto.
  - intros [-> Hne]. change (locked =? unlocked) with false.
    rewrite andb_false_r. apply String.eqb_neq in Hne. now rewrite Hne.
Qed.

(** X13.  A move announces exactly the unlocks of its cascade: the
    requests it adds to the log are one pop for each node listed in
    [X.unlocks], other than [X], that was locked before the move, each
    once, and nothing else.  Both files, the
    move of [3dworld5.13.25.py] raising nothing on a well-formed
    world. *)
Theorem X13_one_pop_per_unlocked_node :
  forall w X x,
    well_formed w ->
    nget X (all_level_nodes w) = Some x ->
    exists L,
      requests (V1.set_current_player_node X w) = requests w ++ map Pop L
      /\ NoDup L
      /\ (forall k, In k L <->
                    In k (unlocks x) /\ k <> X
                    /\ nstate k (all_level_nodes w) = Some locked)
      /\ exists w', V2.set_current_player_node X w = Some w'
                    /\ requests w' = requests w ++ map Pop L.
Proof.
  intros w X x Hwf Hx.
  pose proof (nget_vacate_V1 w X) as HX1. rewrite Hx in HX1. simpl in HX1.
  set (x1 := restate (vacate_state (current_player_node_id w) X) x) in *.
  exists (popped (unlocks x) (unlock_landed x1 X (V1.vacate w))).
  assert (Hreq : requests (V1.set_current_player_node X w)
                 = requests w
                   ++ map Pop (popped (unlocks x) (unlock_landed x1 X (V1.vacate w)))).
  { unfold V1.set_current_player_node. rewrite HX1. simpl.
    apply snd_unlock_cascade. }
  split; [exact Hreq|]. split; [apply popped_nodup|]. split.
  - intros k. rewrite popped_in. unfold nstate.
    rewrite (nget_unlock_landed _ _ _ _ HX1), nget_vacate_V1.
    destruct (nget k (all_level_nodes w)) as [n|]; simpl.
    + split.
      * intros [Hin [= H]]. apply locked_before_cascade in H.
        destruct H as [H1 H2]. rewrite H1. auto.
      * intros (Hin & Hne & [= H]). split; [exact Hin|]. f_equal.
        apply locked_before_cascade. auto.
    + split; [intros [_ H] | intros (_ & _ & H)]; discriminate.
  - destruct (set_current_player_node_V2_total X w Hwf) as [w' Hw'].
    { apply nmem_get. eauto. }
    exists w'. split; [exact Hw'|].
    apply set_current_player_node_V2_V1 in Hw'. destruct Hw' as (_ & _ & Hr & _).
    now rewrite Hr.
Qed.

Lemma X13_one_pop_per_unlocked_node_witness :
  exists L,
    requests (V1.set_current_player_node "B" (V1.init chain_open_data))
    = requests (V1.init chain_open_data) ++ map Pop L
    /\ NoDup L.
Proof.
  assert (Hwf : well_formed (V1.init chain_open_data)) by (split; reflexivity).
  assert (Hx : nget "B" (all_level_nodes (V1.init chain_open_data))
               = Some (mkLevelNode "B" "Level B" ["C"] "unlocked" false true))
    by (vm_compute; reflexivity).
  destruct (X13_one_pop_per_unlocked_node _ _ _ Hwf Hx) as (L & H1 & H2 & _).
  exists L. exact (conj H1 H2).
Defined.

(** ** A move to an id that names no node *)

Lemma count_current_absent X : forall d,
  ~ In X (nkeys d) -> count_current (update_node_visuals (Some X) d) = 0.
Proof.
  induction d as [|[k n] r IH]; intros Hnotin; [reflexivity|].
  simpl in Hnotin. unfold count_current in *. simpl.
  destruct (String.eqb_spec k X) as [->|Hne]; [tauto|].
  simpl. apply IH. tauto.
Qed.

Lemma nget_none_not_in k d : nget k d = None -> ~ In k (nkeys d).
Proof.
  intros Hn Hin. apply nmem_in_keys, nmem_get in Hin.
  destruct Hin as [n Hn']. congruence.
Qed.

Lemma nget_vacate_V1_none w X :
  nget X (all_level_nodes w) = None -> nget X (V1.vacate w) = None.
Proof. intros H. now rewrite nget_vacate_V1, H. Qed.

(** X14.  A move to an id that names no node is tolerated by [1.py] and
    refused by [3dworld5.13.25.py].  In [1.py] the pointer is set to the
    unknown id, no node is flagged current any more, the node being
    vacated is completed as in any move, every other state is kept and no
    request is issued; in [3dworld5.13.25.py] the call raises
    ([KeyError]). *)
Theorem X14_move_to_unknown_id :
  forall w X k,
    nget X (all_level_nodes w) = None ->
    current_player_node_id (V1.set_current_player_node X w) = Some X
    /\ count_current (all_level_nodes (V1.set_current_player_node X w)) = 0
    /\ nstate k (all_level_nodes (V1.set_current_player_node X w))
       = option_map (vacate_state (current_player_node_id w) k)
                    (nstate k (all_level_nodes w))
    /\ requests (V1.set_current_player_node X w) = requests w
    /\ V2.set_current_player_node X w = None.
Proof.
  intros w X k HX.
  pose proof (nget_vacate_V1_none w X HX) as HX1.
  split; [apply pointer_set_current_player_node_V1|].
  unfold V1.set_current_player_node, V2.set_current_player_node.
  rewrite HX1. simpl. split; [|split; [|split]].
  - apply count_current_absent. rewrite nkeys_vacate_V1.
    now apply nget_none_not_in.
  - unfold nstate. rewrite nget_update_node_visuals, nget_vacate_V1.
    now destruct (nget k (all_level_nodes w)).
  - reflexivity.
  - destruct (V2.vacate w) as [d|] eqn:Hv; [|reflexivity].
    apply vacate_V2_V1 in Hv. subst. now rewrite HX1.
Qed.

Lemma X14_move_to_unknown_id_witness :
  current_player_node_id (V1.set_current_player_node "9-9" (V1.init levels_data))
  = Some "9-9"
  /\ count_current
       (all_level_nodes (V1.set_current_player_node "9-9" (V1.init levels_data)))
     = 0
  /\ V2.set_current_player_node "9-9" (V1.init levels_data) = None.
Proof.
  assert (HX : nget "9-9" (all_level_nodes (V1.init levels_data)) = None)
    by (vm_compute; reflexivity).
  destruct (X14_move_to_unknown_id (V1.init levels_data) "9-9" "1-1" HX)
    as (H1 & H2 & _ & _ & H3).
  exact (conj H1 (conj H2 H3)).
Defined.

(** ** The graph during play *)

Lemma holds_graph_start cfg :
  NoDup (map ld_id cfg) ->
  holds_graph cfg (all_level_nodes (V1.update_all_visuals (start_world cfg))).
Proof.
  intros Hnd. split; simpl.
  - rewrite nkeys_update_node_visuals. now apply start_nodes_nkeys.
  - intros data Hin.
    rewrite nget_update_node_visuals, (start_nodes_get cfg data Hnd Hin).
    simpl. eexists. split; [reflexivity|]. now repeat split.
Qed.

Lemma holds_graph_set_current_player_node_V1 cfg X w :
  nmem X (all_level_nodes w) = true ->
  holds_graph cfg (all_level_nodes w) ->
  holds_graph cfg (all_level_nodes (V1.set_current_player_node X w)).
Proof.
  intros HX [Hk Hg]. apply nmem_get in HX. destruct HX as [x Hx]. split.
  - now rewrite nkeys_set_current_player_node_V1.
  - intros data Hin. destruct (Hg data Hin) as (n & Hn & Hof).
    rewrite (nget_set_current_player_node_V1 _ _ _ _ Hx), Hn. simpl.
    eexists. split; [reflexivity|]. exact Hof.
Qed.

Lemma holds_graph_reachable_V1 cfg w :
  ids_nonempty cfg -> NoDup (map ld_id cfg) ->
  V1.reachable cfg w -> holds_graph cfg (all_level_nodes w).
Proof.
  intros Hids Hnd. induction 1 as [|w clicked_id Hr IH].
  - rewrite init_V1_start by exact Hids. now apply holds_graph_start.
  - pose proof (invariant_reachable_V1 _ _ Hr) as Hinv.
    unfold V1.handle_node_click, V1.finish_click.
    destruct (nget clicked_id (all_level_nodes w)) as [n|] eqn:Hn; [|exact IH].
    destruct (node_state n =? locked); [exact IH|].
    destruct (id_is _ _); [exact IH|].
    destruct (V1.rejects _ n); [exact IH|].
    simpl. apply holds_graph_set_current_player_node_V1; [|exact IH].
    rewrite (inv_keyed_by_id w Hinv _ _ Hn). apply nmem_get. eauto.
Qed.

Lemma holds_graph_reachable_V2 cfg w :
  ids_nonempty cfg -> NoDup (map ld_id cfg) ->
  V2.reachable cfg w -> holds_graph cfg (all_level_nodes w).
Proof.
  intros Hids Hnd. induction 1 as [w Hinit | w clicked_id w' Hr IH Hclick].
  - destruct (init_V2_nodes cfg Hids) as (w0 & Hw0 & Hn & _).
    assert (w0 = w) by congruence. subst. rewrite Hn.
    rewrite init_V1_start by exact Hids. now apply holds_graph_start.
  - pose proof (invariant_reachable_V2 _ _ Hr) as Hinv.
    revert Hclick. unfold V2.handle_node_click.
    destruct (nget clicked_id (all_level_nodes w)) as [n|] eqn:Hn;
      [|now intros [= <-]].
    destruct (node_state n =? locked); [now intros [= <-]|].
    destruct (id_is _ _); [now intros [= <-]|].
    match goal with |- context [if ?c then _ else _] => destruct c end;
      [|now intros [= <-]].
    destruct (V2.set_current_player_node (level_id n) w) as [w1|] eqn:Hmove;
      [|discriminate].
    intros [= <-]. simpl.
    apply set_current_player_node_V2_V1 in Hmove. destruct Hmove as (H1 & _).
    rewrite H1. apply holds_graph_set_current_player_node_V1; [|exact IH].
    rewrite (inv_keyed_by_id w Hinv _ _ Hn). apply nmem_get. eauto.
Qed.

(** X15.  Play never rewires the map: with distinct non-empty ids, in
    every world of a game, in both files, the store still holds the
    configured ids in the configured order, and under each id the node
    with the id, name and unlock list of its record.  Clicks change
    states, flags and colliders only. *)
Theorem X15_graph_is_kept :
  forall cfg w,
    ids_nonempty cfg ->
    NoDup (map ld_id cfg) ->
    V1.reachable cfg w \/ V2.reachable cfg w ->
    holds_graph cfg (all_level_nodes w).
Proof.
  intros cfg w Hids Hnd [Hr|Hr].
  - now apply holds_graph_reachable_V1.
  - now apply holds_graph_reachable_V2.
Qed.

Lemma X15_graph_is_kept_witness :
  holds_graph chain_open_data
    (all_level_nodes (V1.handle_node_click "B" (V1.init chain_open_data))).
Proof.
  assert (Hids : ids_nonempty chain_open_data).
  { intros data Hin. simpl in Hin.
    repeat (destruct Hin as [<-|Hin]; [discriminate|]). contradiction. }
  assert (Hnd : NoDup (map ld_id chain_open_data)).
  { simpl. repeat (constructor; [simpl; intuition discriminate|]). constructor. }
  assert (Hr : V1.reachable chain_open_data
                 (V1.handle_node_click "B" (V1.init chain_open_data))
               \/ V2.reachable chain_open_data
                    (V1.handle_node_click "B" (V1.init chain_open_data)))
    by (left; apply V1.reach_click, V1.reach_init).
  exact (X15_graph_is_kept chain_open_data _ Hids Hnd Hr).
Defined.

(** ** Records that share an id *)

Lemma find_app {A} (f : A -> bool) l1 l2 :
  find f (l1 ++ l2) = match find f l1 with Some x => Some x | None => find f l2 end.
Proof.
  induction l1 as [|a l1 IH]; simpl; [reflexivity|].
  now destruct (f a).
Qed.

Lemma created_nodes_get_last cfg : forall d k,
  nget k (created_nodes cfg d) =
  match last_record k cfg with
  | Some data => Some (new_LevelNode data)
  | None => nget k d
  end.
Proof.
  unfold last_record. induction cfg as [|a cfg IH]; intros d k; [reflexivity|].
  rewrite created_nodes_cons, IH. simpl rev. rewrite find_app.
  destruct (find _ (rev cfg)); [reflexivity|].
  simpl. rewrite nget_nset, (String.eqb_sym k (ld_id a)).
  now destruct (ld_id a =? k).
Qed.

(** X16.  Ids are not checked for duplicates: when several records share
    an id, the node found under that id after set-up is the one made
    from the last of them (its name and its unlock list), the earlier
    ones being overwritten in the store; an id that no record carries is
    not in the store.  Both files. *)
Theorem X16_last_record_wins :
  forall cfg k,
    ids_nonempty cfg ->
    match last_record k cfg with
    | Some data =>
        exists n, nget k (all_level_nodes (V1.init cfg)) = Some n
                  /\ node_of data n
    | None => nget k (all_level_nodes (V1.init cfg)) = None
    end
    /\ exists w0, V2.init cfg = Some w0
                  /\ all_level_nodes w0 = all_level_nodes (V1.init cfg).
Proof.
  intros cfg k Hids. split.
  - rewrite init_V1_start by exact Hids. simpl.
    rewrite nget_update_node_visuals.
    assert (Hstart : nget k (start_nodes cfg)
                     = option_map (fun n => set_state (node_state n) n)
                                  (nget k (start_nodes cfg))
                       /\ forall n0, nget k (created_nodes cfg []) = Some n0 ->
                            exists n, nget k (start_nodes cfg) = Some n
                                      /\ level_id n = level_id n0
                                      /\ level_name n = level_name n0
                                      /\ unlocks n = unlocks n0).
    { split.
      - destruct (nget k (start_nodes cfg)); simpl; [|reflexivity].
        now rewrite set_state_same.
      - intros n0 Hn0. unfold start_nodes.
        destruct (first_unlocked cfg); [eauto|].
        destruct cfg as [|first rest]; [eauto|].
        rewrite nget_nadjust, Hn0.
        destruct (k =? ld_id first); simpl; eauto. }
    destruct Hstart as [_ Hstart].
    pose proof (created_nodes_get_last cfg [] k) as Hlast.
    destruct (last_record k cfg) as [data|].
    + destruct (Hstart _ Hlast) as (n & Hn & H1 & H2 & H3).
      rewrite Hn. simpl. eexists. split; [reflexivity|].
      unfold node_of. simpl. now rewrite H1, H2, H3.
    + assert (Hnone : nget k (start_nodes cfg) = None).
      { unfold start_nodes. destruct (first_unlocked cfg); [exact Hlast|].
        destruct cfg as [|first rest]; [exact Hlast|].
        rewrite nget_nadjust, Hlast. now destruct (k =? ld_id first). }
      now rewrite Hnone.
  - destruct (init_V2_nodes cfg Hids) as (w0 & Hw0 & Hn & _). eauto.
Qed.

Lemma X16_last_record_wins_witness :
  exists n, nget "A" (all_level_nodes (V1.init twice_data)) = Some n
            /\ node_of (mkLevelData "A" "Second A" [] "locked") n.
Proof.
  assert (Hids : ids_nonempty twice_data).
  { intros data Hin. simpl in Hin.
    repeat (destruct Hin as [<-|Hin]; [discriminate|]). contradiction. }
  destruct (X16_last_record_wins twice_data "A" Hids) as (H & _).
  exact H.
Defined.

(** ** The two ways a click changes a state *)

Lemma id_is_true k cur : id_is k cur = true -> cur = Some k.
Proof.
  destruct cur as [c|]; simpl; [|discriminate].
  intros H. apply String.eqb_eq in H. now subst.
Qed.





(** ** What a path shows *)

Lemma states_known_fallback_V2 cfg created final :
  states_valid cfg ->
  fst created = created_nodes cfg [] ->
  V2.fallback cfg created = Some final ->
  states_known (fst final).
Proof.
  intros Hcfg Hfst.
  assert (Hc : states_known (fst created)).
  { rewrite Hfst. apply states_known_created; [exact Hcfg|].
    intros k n H. discriminate. }
  unfold V2.fallback. destruct cfg as [|first rest].
  - intros [= <-]. exact Hc.
  - destruct (negb _).
    + destruct (nget _ _); [|discriminate]. simpl.
      intros [= <-]. cbn [fst]. apply states_known_nadjust_set; [|exact Hc].
      right. left. reflexivity.
    + intros [= <-]. exact Hc.
Qed.

Lemma states_known_reachable_V2 cfg w :
  states_valid cfg -> V2.reachable cfg w -> states_known (all_level_nodes w).
Proof.
  intros Hcfg. induction 1 as [w Hinit | w clicked_id w' Hr IH Hclick].
  - unfold V2.init, V2.setup_level_nodes_and_paths in Hinit.
    destruct (V2.fallback cfg _) as [final|] eqn:Hf; [|discriminate].
    apply update_all_visuals_V2_V1 in Hinit. destruct Hinit as (Hn & _).
    rewrite Hn. cbn [V1.update_all_visuals all_level_nodes].
    apply states_known_update_node_visuals.
    eapply states_known_fallback_V2; [exact Hcfg| |exact Hf].
    apply fst_create_nodes_V2.
  - pose proof (invariant_reachable_V2 _ _ Hr) as Hinv.
    revert Hclick. unfold V2.handle_node_click.
    destruct (nget clicked_id (all_level_nodes w)) as [n|] eqn:Hn;
      [|intros [= <-]; exact IH].
    destruct (node_state n =? locked); [intros [= <-]; exact IH|].
    destruct (id_is _ _); [intros [= <-]; exact IH|].
    match goal with |- context [if ?c then _ else _] => destruct c end;
      [|intros [= <-]; exact IH].
    destruct (V2.set_current_player_node (level_id n) w) as [w1|] eqn:Hmove;
      [|discriminate].
    intros [= <-]. simpl.
    apply set_current_player_node_V2_V1 in Hmove. destruct Hmove as (H1 & _).
    rewrite H1. apply states_known_set_current_player_node_V1; [|exact IH].
    rewrite (inv_keyed_by_id w Hinv _ _ Hn). apply nmem_get. eauto.
Qed.

Lemma in_pkeys pk pe (paths : PathDict) : In (pk, pe) paths -> In pk (pkeys paths).
Proof.
  intros H. change pk with (fst (pk, pe)). unfold pkeys, PyDict.keys.
  now apply in_map.
Qed.

(** In a world of a game each path carries the directives computed from
    its two stored endpoints. *)
Lemma path_of_reachable cfg w pk pe :
  states_valid cfg ->
  V1.reachable cfg w \/ V2.reachable cfg w ->
  In (pk, pe) (paths_entities w) ->
  exists node1 node2,
    nget (fst pk) (all_level_nodes w) = Some node1
    /\ nget (snd pk) (all_level_nodes w) = Some node2
    /\ known_state (node_state node1) /\ known_state (node_state node2)
    /\ is_current_game_node node1 = id_is (fst pk) (current_player_node_id w)
    /\ is_current_game_node node2 = id_is (snd pk) (current_player_node_id w)
    /\ pe = V2.path_visual node1 node2.
Proof.
  intros Hcfg Hr Hin.
  assert (Hinv : invariant w).
  { destruct Hr as [Hr|Hr];
      [eapply invariant_reachable_V1 | eapply invariant_reachable_V2]; eauto. }
  assert (Hk : states_known (all_level_nodes w)).
  { destruct Hr as [Hr|Hr];
      [eapply states_known_reachable_V1 | eapply states_known_reachable_V2]; eauto. }
  destruct Hinv as [[_ Hpaths] _ _ Hsync].
  unfold paths_ok in Hpaths. rewrite forallb_forall in Hpaths.
  pose proof (Hpaths pk (in_pkeys _ _ _ Hin)) as Hpk.
  unfold endpoints_in in Hpk. apply andb_prop in Hpk. destruct Hpk as [H1 H2].
  apply nmem_get in H1. destruct H1 as [n1 H1].
  apply nmem_get in H2. destruct H2 as [n2 H2].
  exists n1, n2. split; [exact H1|]. split; [exact H2|].
  pose proof (Hk _ _ H1) as K1. pose proof (Hk _ _ H2) as K2.
  split; [exact K1|]. split; [exact K2|].
  split; [apply Hsync, nget_in, H1|]. split; [apply Hsync, nget_in, H2|].
  destruct Hr as [Hr|Hr].
  - apply reachable_synced_V1 in Hr.
    rewrite <- (path_visual_V1_V2 n1 n2 K1 K2).
    destruct w as [nodes paths cur reqs]. unfold V1.update_all_visuals in Hr.
    cbn [all_level_nodes paths_entities current_player_node_id requests] in *.
    injection Hr as Hn Hp.
    rewrite <- Hp in Hin. rewrite Hn in Hin.
    exact (path_after_sync_V1 _ _ _ _ _ _ Hin H1 H2).
  - apply reachable_synced_V2 in Hr.
    destruct w as [nodes paths cur reqs]. unfold V2.update_all_visuals in Hr.
    cbn [all_level_nodes paths_entities current_player_node_id requests] in *.
    destruct (V2.update_path_visuals (update_node_visuals cur nodes) paths)
      as [ps|] eqn:Hps; [|discriminate].
    simpl in Hr. injection Hr as Hn Hp.
    rewrite Hn in Hps. rewrite Hp in Hps.
    exact (path_after_sync_V2 _ _ _ _ _ _ _ Hps Hin H1 H2).
Qed.

Lemma path_visual_V2_table node1 node2 :
  known_state (node_state node1) -> known_state (node_state node2) ->
  (visible (V2.path_visual node1 node2) = false <->
   node_state node1 = locked /\ node_state node2 = locked)
  /\ (thickness (V2.path_visual node1 node2) = 3 <->
      node_state node1 = locked \/ node_state node2 = locked).
Proof.
  unfold V2.path_visual, state_in_unlocked_completed.
  intros [E1|[E1|E1]] [E2|[E2|E2]]; rewrite E1, E2; simpl;
    destruct (is_current_game_node node1), (is_current_game_node node2); simpl;
    (split; split; try discriminate; try tauto; auto;
     try (intros [H _]; discriminate); try (intros [_ H]; discriminate);
     try (intros [H|H]; discriminate)).
Qed.

(** X18.  What a path shows, all through a game whose configured states
    are state names, in both files: both endpoints of every path are
    stored; the path is hidden exactly when both are locked; it is drawn
    thin (3) exactly when at least one is locked; and it is drawn thick
    (8) exactly when neither is locked and the pointer is on one of
    them. *)
Theorem X18_what_a_path_shows :
  forall cfg w pk pe,
    states_valid cfg ->
    V1.reachable cfg w \/ V2.reachable cfg w ->
    In (pk, pe) (paths_entities w) ->
    exists node1 node2,
      nget (fst pk) (all_level_nodes w) = Some node1
      /\ nget (snd pk) (all_level_nodes w) = Some node2
      /\ (visible pe = false <->
          node_state node1 = locked /\ node_state node2 = locked)
      /\ (thickness pe = 3 <->
          node_state node1 = locked \/ node_state node2 = locked)
      /\ (thickness pe = 8 <->
          node_state node1 <> locked /\ node_state node2 <> locked
          /\ (current_player_node_id w = Some (fst pk)
              \/ current_player_node_id w = Some (snd pk))).
Proof.
  intros cfg w pk pe Hcfg Hr Hin.
  destruct (path_of_reachable cfg w pk pe Hcfg Hr Hin)
    as (n1 & n2 & H1 & H2 & K1 & K2 & C1 & C2 & ->).
  exists n1, n2. split; [exact H1|]. split; [exact H2|].
  destruct (path_visual_V2_table n1 n2 K1 K2) as [Hv Ht].
  split; [exact Hv|]. split; [exact Ht|].
  destruct (path_visual_V2_spec n1 n2) as [_ H8]. rewrite H8, C1, C2.
  split.
  - intros (A & B & [C|C]); apply id_is_true in C; auto.
  - intros (A & B & [C|C]); rewrite C; simpl; rewrite String.eqb_refl; auto.
Qed.

Lemma X18_what_a_path_shows_witness :
  exists node1 node2,
    nget "1-1" (all_level_nodes (V1.init levels_data)) = Some node1
    /\ nget "1-2" (all_level_nodes (V1.init levels_data)) = Some node2
    /\ (true = false <-> node_state node1 = locked /\ node_state node2 = locked).
Proof.
  assert (Hr : V1.reachable levels_data (V1.init levels_data)
               \/ V2.reachable levels_data (V1.init levels_data))
    by (left; apply V1.reach_init).
  assert (Hin : In (("1-1", "1-2"),
                    {| path_color := black; thickness := 3; visible := true |})
                   (paths_entities (V1.init levels_data)))
    by (vm_compute; left; reflexivity).
  destruct (X18_what_a_path_shows levels_data _ _ _
              levels_data_states_valid Hr Hin)
    as (n1 & n2 & H1 & H2 & H3 & _).
  exists n1, n2. exact (conj H1 (conj H2 H3)).
Defined.
